(** * The Dalvik open-addressing hash table (vm/Hash)

    A shallow embedding of the hash table of the Dalvik VM: linear probing
    with wrap-around, tombstones for removed entries, and a resize that
    doubles the table when it gets more than 5/8 full.

    The C code works on a heap-allocated array of [HashEntry] through
    pointers.  Here the array is a list, a pointer into it is the index of
    the entry it points to ([pEnd] is the index [tableSize]), and every
    access goes through [load], which reports an access outside the array.
    The [while] loops, which the C code does not bound, take fuel. *)

From stdpp Require Import base numbers list.

Local Open Scope Z_scope.

(** ** Results of running a piece of the C code *)

Inductive outcome (A : Type) : Type :=
  | Done (a : A)      (* ran to completion *)
  | OutOfFuel         (* a loop did not finish within the fuel given *)
  | OutOfBounds       (* an entry outside the array was accessed *)
  | Overflow          (* signed [int] arithmetic left the range of [int] *)
  | Aborted.          (* [dvmAbort] was called *)

Arguments Done {A} a.
Arguments OutOfFuel {A}.
Arguments OutOfBounds {A}.
Arguments Overflow {A}.
Arguments Aborted {A}.

Definition bind {A B : Type} (m : outcome A) (k : A → outcome B) : outcome B :=
  match m with
  | Done a => k a
  | OutOfFuel => OutOfFuel
  | OutOfBounds => OutOfBounds
  | Overflow => Overflow
  | Aborted => Aborted
  end.

Notation "x <- m ; k" := (bind m (λ x, k))
  (at level 20, m at level 100, k at level 200, right associativity).
Notation "' pat <- m ; k" := (bind m (λ x, match x with pat => k end))
  (at level 20, pat pattern, m at level 100, k at level 200,
   right associativity).

(** ** Machine integers *)

Definition INT_MAX : Z := 2147483647.
Definition INT_MIN : Z := -2147483648.
Definition U4_MOD : Z := 4294967296.

(** The result of an [int] operation: signed overflow is undefined in C. *)
Definition int_ (z : Z) : outcome Z :=
  if (INT_MIN <=? z) && (z <=? INT_MAX) then Done z else Overflow.

(** Conversion of a [u4] to [int] and back (two's complement). *)
Definition u4_to_int (h : Z) : Z := if h <? 2147483648 then h else h - U4_MOD.
Definition int_to_u4 (z : Z) : Z := z mod U4_MOD.

Definition is_u4 (h : Z) : Prop := 0 ≤ h < U4_MOD.

(** ** Data *)

(** A [void*]; only its identity matters. *)
Definition ptr : Type := Z.
Definition NULL : ptr := 0.

(** Modelled from the spec: the [HASH_TOMBSTONE] macro is declared in Hash.h,
    which is not among the sources; the spec describes it as a reserved
    sentinel value sharing the slot's data field with real values.  The
    value is the one of the Dalvik header; the proofs use only that it is
    not [NULL]. *)
Definition HASH_TOMBSTONE : ptr := 0xcbcacccd.

(** Modelled from the spec: [HashEntry] and [HashTable] are declared in
    Hash.h; the fields are the ones the code uses, with the types it uses
    them at ([u4] for the stored hash, [int] for the size and the counts).
    [freeFunc] records whether the release function is present, and the
    ghost field [freed] logs the values it has been called on. *)
Record HashEntry : Type := mkEntry {
  hashValue : Z;
  data : ptr
}.

Record HashTable : Type := mkTable {
  tableSize : Z;
  numEntries : Z;
  numDeadEntries : Z;
  pEntries : list HashEntry;
  freeFunc : bool;
  freed : list ptr
}.

(** The callbacks are function pointers returning [int]; they are taken to
    be functions of their arguments.  [HashCompareFunc] is called with the
    stored value first and returns 0 for a match. *)
Definition HashCompareFunc : Type := ptr → ptr → Z.
Definition HashForeachRemoveFunc : Type := ptr → Z.

Definition LOAD_NUMER : Z := 5.
Definition LOAD_DENOM : Z := 8.

(** The three states of a slot. *)
Definition is_empty (e : HashEntry) : bool := data e =? NULL.
Definition is_tombstone (e : HashEntry) : bool := data e =? HASH_TOMBSTONE.
Definition is_live (e : HashEntry) : bool :=
  negb (data e =? NULL) && negb (data e =? HASH_TOMBSTONE).

(** ** Memory *)

(** Reading the entry a pointer into the array points to. *)
Definition load (es : list HashEntry) (i : Z) : outcome HashEntry :=
  if 0 <=? i then
    match es !! Z.to_nat i with
    | Some e => Done e
    | None => OutOfBounds
    end
  else OutOfBounds.

(** [calloc n sizeof(HashEntry)]: [n] zeroed entries.  The allocator is not
    part of the model: an allocation of a non-negative size succeeds. *)
Definition calloc (n : Z) : option (list HashEntry) :=
  if 0 <=? n then Some (replicate (Z.to_nat n) (mkEntry 0 NULL)) else None.

(** The assignments [pEntries[i].data = d] and [pEntries[i] = e], and the
    assignment of the two counts. *)
Definition set_data (t : HashTable) (i : Z) (d : ptr) : HashTable :=
  mkTable (tableSize t) (numEntries t) (numDeadEntries t)
    (alter (λ e, mkEntry (hashValue e) d) (Z.to_nat i) (pEntries t))
    (freeFunc t) (freed t).

Definition set_entry (t : HashTable) (i : Z) (e : HashEntry) : HashTable :=
  mkTable (tableSize t) (numEntries t) (numDeadEntries t)
    (<[Z.to_nat i := e]> (pEntries t)) (freeFunc t) (freed t).

Definition set_counts (t : HashTable) (n d : Z) : HashTable :=
  mkTable (tableSize t) n d (pEntries t) (freeFunc t) (freed t).

(** ** dvmHashSize *)

(** [size_t] arithmetic is unsigned and wraps around; [w] is the width of
    [size_t] in bits (32 on the targets of the VM). *)
Definition dvmHashSize (w : Z) (size : Z) : Z :=
  (((size * LOAD_DENOM) mod 2 ^ w) / LOAD_NUMER + 1) mod 2 ^ w.

(** ** dvmHashTableCreate *)

(** Modelled from the spec: [dexRoundUpPower2] is not among the sources; the
    spec has the capacity hint rounded up to the next power of two. *)
Definition dexRoundUpPower2 (val : Z) : Z := 2 ^ Z.log2_up val.

(** The result is [None] where the C function returns [NULL].  The
    allocation of the table structure itself is taken to succeed; the
    assertion [initialSize > 0] is a hypothesis where it matters. *)
Definition dvmHashTableCreate (initialSize : Z) (ff : bool)
    : option HashTable :=
  let size := dexRoundUpPower2 initialSize in
  match calloc size with
  | Some es => Some (mkTable size 0 0 es ff [])
  | None => None
  end.

(** ** dvmHashTableClear *)

(** The [for] loop: [i] counts the iterations left, [pEnt] walks the array
    upwards.  A call of the release function is logged in [freed]. *)
Fixpoint clear_loop (i : nat) (t : HashTable) (pEnt : Z) : outcome HashTable :=
  match i with
  | O => Done t
  | S i' =>
      e <- load (pEntries t) pEnt ;
      let t' :=
        if data e =? HASH_TOMBSTONE then set_data t pEnt NULL
        else if negb (data e =? NULL) then
          let t1 :=
            if freeFunc t
            then mkTable (tableSize t) (numEntries t) (numDeadEntries t)
                   (pEntries t) (freeFunc t) (freed t ++ [data e])
            else t in
          set_data t1 pEnt NULL
        else t in
      clear_loop i' t' (pEnt + 1)
  end.

Definition dvmHashTableClear (t : HashTable) : outcome HashTable :=
  t' <- clear_loop (Z.to_nat (tableSize t)) t 0 ;
  Done (set_counts t' 0 0).

(** ** countTombStones *)

(** The [for] loop, from the last entry down to the first; [i] is the value
    of the C variable before [--i]. *)
Fixpoint countTombStones_loop (i : nat) (t : HashTable) (count : Z)
    : outcome Z :=
  match i with
  | O => Done count
  | S i' =>
      e <- load (pEntries t) (Z.of_nat i') ;
      countTombStones_loop i' t
        (if data e =? HASH_TOMBSTONE then count + 1 else count)
  end.

Definition countTombStones (t : HashTable) : outcome Z :=
  countTombStones_loop (Z.to_nat (tableSize t)) t 0.

(** ** resizeHash *)

(** The inner [while] loop: probe the new array for a free slot. *)
Fixpoint resize_probe (fuel : nat) (pNewEntries : list HashEntry)
    (newSize newIdx : Z) : outcome Z :=
  match fuel with
  | O => OutOfFuel
  | S fuel' =>
      e <- load pNewEntries newIdx ;
      if data e =? NULL then Done newIdx
      else resize_probe fuel' pNewEntries newSize
             (Z.land (newIdx + 1) (newSize - 1))
  end.

(** The [for] loop over the old array, from its last entry down to the
    first; [i] is the value of the C variable before [--i]. *)
Fixpoint resize_loop (fuel : nat) (t : HashTable) (newSize : Z) (i : nat)
    (pNewEntries : list HashEntry) : outcome (list HashEntry) :=
  match i with
  | O => Done pNewEntries
  | S i' =>
      e <- load (pEntries t) (Z.of_nat i') ;
      if negb (data e =? NULL) && negb (data e =? HASH_TOMBSTONE) then
        let hashValue := u4_to_int (hashValue e) in
        newIdx <- resize_probe fuel pNewEntries newSize
                    (Z.land hashValue (newSize - 1)) ;
        resize_loop fuel t newSize i'
          (<[Z.to_nat newIdx := mkEntry (int_to_u4 hashValue) (data e)]>
             pNewEntries)
      else resize_loop fuel t newSize i' pNewEntries
  end.

Definition resizeHash (fuel : nat) (t : HashTable) (newSize : Z)
    : outcome (bool * HashTable) :=
  match calloc newSize with
  | None => Done (false, t)
  | Some pNewEntries =>
      es <- resize_loop fuel t newSize (Z.to_nat (tableSize t)) pNewEntries ;
      Done (true, mkTable newSize (numEntries t) 0 es (freeFunc t) (freed t))
  end.

(** ** dvmHashTableLookup *)

(** The test of the probe loop for a match. *)
Definition lookup_match (cmpFunc : HashCompareFunc) (itemHash : Z) (item : ptr)
    (e : HashEntry) : bool :=
  negb (data e =? HASH_TOMBSTONE) && (hashValue e =? itemHash)
  && (cmpFunc (data e) item =? 0).

(** The probe loop.  It returns the entry [pEntry] points to when the loop
    is left; [count] is a ghost counter, incremented where [countProbes]
    increments its counter in the same loop. *)
Fixpoint lookup_loop (fuel : nat) (t : HashTable) (itemHash : Z) (item : ptr)
    (cmpFunc : HashCompareFunc) (pEntry : Z) (count : Z) : outcome (Z * Z) :=
  match fuel with
  | O => OutOfFuel
  | S fuel' =>
      e <- load (pEntries t) pEntry ;
      if data e =? NULL then Done (pEntry, count)
      else if lookup_match cmpFunc itemHash item e then Done (pEntry, count)
      else
        let pEntry' := pEntry + 1 in
        if pEntry' =? tableSize t then
          if tableSize t =? 1 then Done (pEntry', count)
          else lookup_loop fuel' t itemHash item cmpFunc 0 (count + 1)
        else lookup_loop fuel' t itemHash item cmpFunc pEntry' (count + 1)
  end.

(** The branch of lookup that adds the item at the Empty slot [pEntry] the
    probe has ended at, and resizes the table when that made it too full. *)
Definition lookup_add (fuel : nat) (t : HashTable) (pEntry : Z) (itemHash : Z)
    (item : ptr) : outcome (ptr * HashTable) :=
  n <- int_ (numEntries t + 1) ;
  let t1 :=
    set_counts (set_entry t pEntry (mkEntry itemHash item))
      n (numDeadEntries t) in
  s <- int_ (numEntries t1 + numDeadEntries t1) ;
  l <- int_ (s * LOAD_DENOM) ;
  r <- int_ (tableSize t1 * LOAD_NUMER) ;
  if r <? l then
    newSize <- int_ (tableSize t1 * 2) ;
    '(ok, t2) <- resizeHash fuel t1 newSize ;
    if ok : bool then Done (item, t2) else Aborted
  else Done (item, t1).

(** The lookup with the number of probe steps it took. *)
Definition lookup_counting (fuel : nat) (t : HashTable) (itemHash : Z)
    (item : ptr) (cmpFunc : HashCompareFunc) (doAdd : bool)
    : outcome (ptr * HashTable * Z) :=
  '(pEntry, count) <-
     lookup_loop fuel t itemHash item cmpFunc
       (Z.land itemHash (tableSize t - 1)) 0 ;
  e <- load (pEntries t) pEntry ;
  if data e =? NULL then
    if doAdd then
      '(result, t') <- lookup_add fuel t pEntry itemHash item ;
      Done (result, t', count)
    else Done (NULL, t, count)
  else Done (data e, t, count).

Definition dvmHashTableLookup (fuel : nat) (t : HashTable) (itemHash : Z)
    (item : ptr) (cmpFunc : HashCompareFunc) (doAdd : bool)
    : outcome (ptr * HashTable) :=
  '(result, t', _) <- lookup_counting fuel t itemHash item cmpFunc doAdd ;
  Done (result, t').

(** ** dvmHashTableRemove *)

(** The probe loop, which returns from inside when it finds the item. *)
Fixpoint remove_loop (fuel : nat) (t : HashTable) (item : ptr) (pEntry : Z)
    : outcome (bool * HashTable) :=
  match fuel with
  | O => OutOfFuel
  | S fuel' =>
      e <- load (pEntries t) pEntry ;
      if data e =? NULL then Done (false, t)
      else if data e =? item then
        n <- int_ (numEntries t - 1) ;
        d <- int_ (numDeadEntries t + 1) ;
        Done (true, set_counts (set_data t pEntry HASH_TOMBSTONE) n d)
      else
        let pEntry' := pEntry + 1 in
        if pEntry' =? tableSize t then
          if tableSize t =? 1 then Done (false, t)
          else remove_loop fuel' t item 0
        else remove_loop fuel' t item pEntry'
  end.

Definition dvmHashTableRemove (fuel : nat) (t : HashTable) (itemHash : Z)
    (item : ptr) : outcome (bool * HashTable) :=
  remove_loop fuel t item (Z.land itemHash (tableSize t - 1)).

(** ** dvmHashForeachRemove *)

(** The [for] loop, from the last entry down to the first. *)
Fixpoint foreachRemove_loop (i : nat) (t : HashTable)
    (func : HashForeachRemoveFunc) : outcome (Z * HashTable) :=
  match i with
  | O => Done (0, t)
  | S i' =>
      e <- load (pEntries t) (Z.of_nat i') ;
      if negb (data e =? NULL) && negb (data e =? HASH_TOMBSTONE) then
        let val := func (data e) in
        if val =? 1 then
          n <- int_ (numEntries t - 1) ;
          d <- int_ (numDeadEntries t + 1) ;
          foreachRemove_loop i'
            (set_counts (set_data t (Z.of_nat i') HASH_TOMBSTONE) n d) func
        else if negb (val =? 0) then Done (val, t)
        else foreachRemove_loop i' t func
      else foreachRemove_loop i' t func
  end.

Definition dvmHashForeachRemove (t : HashTable) (func : HashForeachRemoveFunc)
    : outcome (Z * HashTable) :=
  foreachRemove_loop (Z.to_nat (tableSize t)) t func.

(** ** dvmHashForeach *)

(** The visitor of [dvmHashForeach] gets the stored value and the caller's
    [arg]; what [arg] points to is the visitor's own state, of a type [A],
    which a call may change. *)
Definition HashForeachFunc (A : Type) : Type := ptr → A → Z * A.

(** The [for] loop, from the last entry down to the first. *)
Fixpoint foreach_loop {A : Type} (i : nat) (t : HashTable)
    (func : HashForeachFunc A) (arg : A) : outcome (Z * A) :=
  match i with
  | O => Done (0, arg)
  | S i' =>
      e <- load (pEntries t) (Z.of_nat i') ;
      if negb (data e =? NULL) && negb (data e =? HASH_TOMBSTONE) then
        let '(val, arg') := func (data e) arg in
        if negb (val =? 0) then Done (val, arg')
        else foreach_loop i' t func arg'
      else foreach_loop i' t func arg
  end.

Definition dvmHashForeach {A : Type} (t : HashTable)
    (func : HashForeachFunc A) (arg : A) : outcome (Z * A) :=
  foreach_loop (Z.to_nat (tableSize t)) t func arg.

(** ** countProbes *)

Definition countProbes (fuel : nat) (t : HashTable) (itemHash : Z) (item : ptr)
    (cmpFunc : HashCompareFunc) : outcome Z :=
  '(pEntry, count) <-
     lookup_loop fuel t itemHash item cmpFunc
       (Z.land itemHash (tableSize t - 1)) 0 ;
  e <- load (pEntries t) pEntry ;
  if data e =? NULL then Done (-1) else Done count.

(** * Specification vocabulary *)

(** The number of entries of an array that satisfy a test. *)
Fixpoint count_if (P : HashEntry → bool) (es : list HashEntry) : Z :=
  match es with
  | [] => 0
  | e :: es' => (if P e then 1 else 0) + count_if P es'
  end.

(** The slot a hash is first looked for at, and the [k]-th slot of the
    probe sequence that starts at slot [i] of a table of [T] slots. *)
Definition home (T h : Z) : Z := Z.land h (T - 1).
Definition slot (T i k : Z) : Z := (i + k) mod T.

Definition nonempty_at (es : list HashEntry) (i : Z) : Prop :=
  ∃ e, es !! Z.to_nat i = Some e ∧ is_empty e = false.

(** [e] is stored in an Occupied slot. *)
Definition live_in (es : list HashEntry) (e : HashEntry) : Prop :=
  ∃ p : nat, es !! p = Some e ∧ is_live e = true.

(** No Empty slot lies between the home slot of a stored entry and the slot
    it is stored in. *)
Definition path_ok (T : Z) (es : list HashEntry) : Prop :=
  ∀ (p : nat) e, es !! p = Some e → is_live e = true →
    ∀ j, 0 ≤ j < (Z.of_nat p - home T (hashValue e)) mod T →
      nonempty_at es (slot T (home T (hashValue e)) j).

(** The array resize fills: of the new size, without Tombstones, and with
    every entry it holds so far reachable. *)
Definition fresh_array (newSize : Z) (es : list HashEntry) : Prop :=
  Z.of_nat (length es) = newSize ∧
  (∀ (p : nat) e, es !! p = Some e →
     is_u4 (hashValue e) ∧ is_tombstone e = false) ∧
  path_ok newSize es.

(** The shape of a table: a power of two of slots, as many as the array is
    long, and stored hashes that are [u4] values. *)
Record wf (t : HashTable) : Prop := mk_wf {
  wf_pow2 : ∃ n, 0 ≤ n ≤ 30 ∧ tableSize t = 2 ^ n;
  wf_length : Z.of_nat (length (pEntries t)) = tableSize t;
  wf_hash : ∀ (p : nat) e, pEntries t !! p = Some e → is_u4 (hashValue e)
}.

(** The counts are the numbers of Occupied and of Tombstone slots, and
    every stored entry can be reached from its home slot. *)
Record consistent (t : HashTable) : Prop := mk_consistent {
  con_wf : wf t;
  con_live : numEntries t = count_if is_live (pEntries t);
  con_dead : numDeadEntries t = count_if is_tombstone (pEntries t);
  con_path : path_ok (tableSize t) (pEntries t)
}.

(** The table is not more than 5/8 full. *)
Definition load_ok (t : HashTable) : Prop :=
  (numEntries t + numDeadEntries t) * LOAD_DENOM ≤ tableSize t * LOAD_NUMER.

(** The invariant of the table. *)
Definition Inv (t : HashTable) : Prop := consistent t ∧ load_ok t.

(** What adding the key [(itemHash, item)] to [t] gives: [t'] holds one more
    Occupied entry, the new one, and either has the size of [t], or twice
    the size and no Tombstones when the new entry made [t] too full. *)
Definition added_to (t : HashTable) (itemHash : Z) (item : ptr)
    (t' : HashTable) : Prop :=
  Inv t' ∧
  numEntries t' = numEntries t + 1 ∧
  freeFunc t' = freeFunc t ∧ freed t' = freed t ∧
  (∀ e, live_in (pEntries t') e
        ↔ live_in (pEntries t) e ∨ e = mkEntry itemHash item) ∧
  ((tableSize t' = tableSize t ∧ numDeadEntries t' = numDeadEntries t) ∨
   (tableSize t' = 2 * tableSize t ∧ numDeadEntries t' = 0 ∧
    tableSize t * LOAD_NUMER
      < (numEntries t + 1 + numDeadEntries t) * LOAD_DENOM)).

(** [k] is the first position of the probe sequence from slot [i] whose
    entry passes the test [stop]. *)
Definition first_stop (stop : HashEntry → bool) (es : list HashEntry)
    (T i k : Z) : Prop :=
  0 ≤ k ∧
  (∀ j, 0 ≤ j < k →
     ∃ e, es !! Z.to_nat (slot T i j) = Some e ∧ stop e = false) ∧
  (∃ e, es !! Z.to_nat (slot T i k) = Some e ∧ stop e = true).

(** The tests that end the probe loops of lookup and remove. *)
Definition lookup_stop (cmpFunc : HashCompareFunc) (itemHash : Z) (item : ptr)
    (e : HashEntry) : bool :=
  is_empty e || lookup_match cmpFunc itemHash item e.
Definition remove_stop (item : ptr) (e : HashEntry) : bool :=
  is_empty e || (data e =? item).

(** The stored entry [a] is what a lookup for the key of [b] looks for. *)
Definition key_match (cmpFunc : HashCompareFunc) (a b : HashEntry) : Prop :=
  hashValue a = hashValue b ∧ cmpFunc (data a) (data b) = 0.

(** The keys of the entries in [P] are distinct: an entry matches itself
    and nothing else. *)
Definition distinct_keys (cmpFunc : HashCompareFunc)
    (P : HashEntry → Prop) : Prop :=
  (∀ a, P a → key_match cmpFunc a a) ∧
  (∀ a b, P a → P b → key_match cmpFunc a b → a = b).

(** The keys of the entries stored in different slots are distinct. *)
Definition distinct_slots (cmpFunc : HashCompareFunc)
    (es : list HashEntry) : Prop :=
  (∀ (p : nat) a, es !! p = Some a → is_live a = true →
     key_match cmpFunc a a) ∧
  (∀ (p q : nat) a b, es !! p = Some a → es !! q = Some b →
     is_live a = true → is_live b = true → key_match cmpFunc a b → p = q).

(** Slot [q] is on the probe path of [itemHash]: it is reached from the
    home slot before any Empty slot is. *)
Definition on_probe_path (t : HashTable) (itemHash : Z) (q : Z) : Prop :=
  ∃ k, 0 ≤ k ∧ q = slot (tableSize t) (home (tableSize t) itemHash) k ∧
       ∀ j, 0 ≤ j ≤ k →
         nonempty_at (pEntries t)
           (slot (tableSize t) (home (tableSize t) itemHash) j).

(** The table [t] after the Occupied slot [q], which holds [e], has been
    turned into a Tombstone. *)
Definition tombstoned (t : HashTable) (q : nat) (e : HashEntry) : HashTable :=
  mkTable (tableSize t) (numEntries t - 1) (numDeadEntries t + 1)
    (<[q := mkEntry (hashValue e) HASH_TOMBSTONE]> (pEntries t))
    (freeFunc t) (freed t).

(** What a caller may pass as a key or a value. *)
Definition valid_item (item : ptr) : Prop :=
  item ≠ NULL ∧ item ≠ HASH_TOMBSTONE.
Definition valid_key (k : HashEntry) : Prop :=
  is_u4 (hashValue k) ∧ valid_item (data k).

(** A sequence of insertions: lookups with [doAdd] set. *)
Fixpoint insert_all (fuel : nat) (cmpFunc : HashCompareFunc) (t : HashTable)
    (keys : list HashEntry) : outcome HashTable :=
  match keys with
  | [] => Done t
  | k :: keys' =>
      '(_, t') <- dvmHashTableLookup fuel t (hashValue k) (data k) cmpFunc true ;
      insert_all fuel cmpFunc t' keys'
  end.

(** A lookup has added an entry exactly when it has changed [numEntries]. *)
Definition added (t t' : HashTable) : bool :=
  negb (numEntries t' =? numEntries t).

(** The tables that the public operations produce from a created table,
    with the keys that were added on the way.  Keys and values are valid
    items: lookup asserts it, and the table is not meant to be handed its
    own tombstone marker. *)
Inductive reachable : list HashEntry → HashTable → Prop :=
  | reach_create initialSize ff t :
      0 < initialSize ≤ 2 ^ 30 →
      dvmHashTableCreate initialSize ff = Some t →
      reachable [] t
  | reach_lookup ins t fuel itemHash item cmpFunc doAdd result t' :
      reachable ins t →
      is_u4 itemHash → valid_item item →
      dvmHashTableLookup fuel t itemHash item cmpFunc doAdd
        = Done (result, t') →
      reachable (if added t t' then mkEntry itemHash item :: ins else ins) t'
  | reach_remove ins t fuel itemHash item removed t' :
      reachable ins t →
      is_u4 itemHash → valid_item item →
      dvmHashTableRemove fuel t itemHash item = Done (removed, t') →
      reachable ins t'
  | reach_clear ins t t' :
      reachable ins t →
      dvmHashTableClear t = Done t' →
      reachable ins t'
  | reach_foreachRemove ins t func val t' :
      reachable ins t →
      dvmHashForeachRemove t func = Done (val, t') →
      reachable ins t'.

(** ** Vocabulary of the further properties *)

(** The values of the Occupied slots of an array, in the order of the
    slots. *)
Fixpoint live_data (es : list HashEntry) : list ptr :=
  match es with
  | [] => []
  | e :: es' => if is_live e then data e :: live_data es' else live_data es'
  end.

(** Calling a visitor on a list of values in turn, up to the first answer
    that is not 0. *)
Fixpoint visit {A : Type} (func : HashForeachFunc A) (vs : list ptr) (arg : A)
    : Z * A :=
  match vs with
  | [] => (0, arg)
  | v :: vs' =>
      let '(val, arg') := func v arg in
      if val =? 0 then visit func vs' arg' else (val, arg')
  end.

(** What a removing traversal does to one slot: an Occupied slot whose
    value the visitor answers 1 for becomes a Tombstone. *)
Definition sweep (func : HashForeachRemoveFunc) (e : HashEntry) : HashEntry :=
  if is_live e && (func (data e) =? 1)
  then mkEntry (hashValue e) HASH_TOMBSTONE
  else e.

(** The key [(itemHash, item)] matches no stored entry. *)
Definition no_match (cmpFunc : HashCompareFunc) (t : HashTable)
    (itemHash : Z) (item : ptr) : Prop :=
  ∀ e, live_in (pEntries t) e →
       ¬ key_match cmpFunc e (mkEntry itemHash item).

(** ** Examples *)

(** Keys that are compared by the identity of the value. *)
Definition cmp_identity : HashCompareFunc := λ a b, if a =? b then 0 else 1.

(** The table of four slots, as created, and the four keys of the scenario
    of the specification; the third insertion doubles the table. *)
Definition table4 : HashTable :=
  mkTable 4 0 0 (replicate 4 (mkEntry 0 NULL)) false [].

Definition keysABCD : list HashEntry :=
  [mkEntry 0 11; mkEntry 1 12; mkEntry 2 13; mkEntry 4 14].

Definition tableABCD : HashTable :=
  mkTable 8 4 0
    [mkEntry 0 11; mkEntry 1 12; mkEntry 2 13; mkEntry 0 NULL;
     mkEntry 4 14; mkEntry 0 NULL; mkEntry 0 NULL; mkEntry 0 NULL]
    false [].

(** The table after the first [n] of the four insertions. *)
Definition table_after (n : nat) : HashTable :=
  match insert_all 16 cmp_identity table4 (take n keysABCD) with
  | Done t => t
  | _ => table4
  end.

(** The same table after the entry of key B has been removed. *)
Definition tableACD : HashTable :=
  mkTable 8 3 1
    [mkEntry 0 11; mkEntry 1 HASH_TOMBSTONE; mkEntry 2 13; mkEntry 0 NULL;
     mkEntry 4 14; mkEntry 0 NULL; mkEntry 0 NULL; mkEntry 0 NULL]
    false [].

(** A visitor that removes the value of key B and keeps the others. *)
Definition remove_B : HashForeachRemoveFunc := λ v, if v =? 12 then 1 else 0.


(** A visitor that collects the values it is shown, one that stops at the
    value of key C with the code 7, and a removing visitor that stops there
    with the code 7 and removes the value of key D. *)
Definition collect : HashForeachFunc (list ptr) := λ v seen, (0, seen ++ [v]).

Definition stop_at_C : HashForeachFunc (list ptr) :=
  λ v seen, (if v =? 13 then 7 else 0, seen ++ [v]).

Definition remove_D_stop_at_C : HashForeachRemoveFunc :=
  λ v, if v =? 14 then 1 else if v =? 13 then 7 else 0.

(** The table with the Tombstone of key B, with a release function that has
    been called once before. *)
Definition tableACD_release : HashTable :=
  mkTable 8 3 1
    [mkEntry 0 11; mkEntry 1 HASH_TOMBSTONE; mkEntry 2 13; mkEntry 0 NULL;
     mkEntry 4 14; mkEntry 0 NULL; mkEntry 0 NULL; mkEntry 0 NULL]
    true [5].

(** * Proofs *)

(** ** Machine arithmetic and memory *)

Lemma tombstone_not_null : HASH_TOMBSTONE ≠ NULL.
Proof. done. Qed.

Lemma int_in_range z : INT_MIN ≤ z ≤ INT_MAX → int_ z = Done z.
Proof.
  intros [H1 H2]. unfold int_.
  destruct (Z.leb_spec INT_MIN z), (Z.leb_spec z INT_MAX); simpl; done || lia.
Qed.

Lemma int_Done z r : int_ z = Done r → r = z ∧ INT_MIN ≤ z ≤ INT_MAX.
Proof.
  unfold int_.
  destruct (Z.leb_spec INT_MIN z), (Z.leb_spec z INT_MAX); simpl;
    intros; simplify_eq; lia.
Qed.

Lemma load_Done es i e :
  load es i = Done e ↔ 0 ≤ i ∧ es !! Z.to_nat i = Some e.
Proof.
  unfold load. destruct (Z.leb_spec 0 i).
  - destruct (es !! Z.to_nat i); split; intros; simplify_eq; intuition congruence.
  - split; [done | lia].
Qed.

Lemma load_lookup es (p : nat) e : es !! p = Some e → load es (Z.of_nat p) = Done e.
Proof. intros. apply load_Done. rewrite Nat2Z.id. split; [lia | done]. Qed.

Lemma u4_int_u4 h : is_u4 h → int_to_u4 (u4_to_int h) = h.
Proof.
  unfold is_u4, int_to_u4, u4_to_int, U4_MOD. intros.
  destruct (Z.ltb_spec h 2147483648).
  - apply Z.mod_small. lia.
  - replace (h - 4294967296) with (h + (-1) * 4294967296) by lia.
    rewrite Z.mod_add by lia. apply Z.mod_small. lia.
Qed.

Lemma home_mod T h n : 0 ≤ n → T = 2 ^ n → home T h = h mod T.
Proof.
  intros Hn ->. unfold home. rewrite <- Z.land_ones by done.
  by rewrite Z.ones_equiv, <- Z.sub_1_r.
Qed.

Lemma home_u4_to_int T h n :
  0 ≤ n ≤ 30 → T = 2 ^ n → is_u4 h → home T (u4_to_int h) = home T h.
Proof.
  intros Hn HT Hh. rewrite !(home_mod T _ n) by lia.
  unfold u4_to_int, U4_MOD. destruct (Z.ltb_spec h 2147483648); [done |].
  replace 4294967296 with (2 ^ (32 - n) * 2 ^ n).
  - subst T. replace (h - 2 ^ (32 - n) * 2 ^ n)
      with (h + (- 2 ^ (32 - n)) * 2 ^ n) by lia.
    apply Z.mod_add. lia.
  - rewrite <- Z.pow_add_r by lia. by replace (32 - n + n) with 32 by lia.
Qed.

(** ** The probe sequence *)

Lemma slot_range T : 0 < T → ∀ i k, 0 ≤ slot T i k < T.
Proof. intros HT i k. unfold slot. apply Z.mod_pos_bound. lia. Qed.

Lemma slot_0 T i : 0 ≤ i < T → slot T i 0 = i.
Proof. intros. unfold slot. rewrite Z.add_0_r. by apply Z.mod_small. Qed.

Lemma slot_succ T i k : slot T (slot T i 1) k = slot T i (k + 1).
Proof. unfold slot. rewrite Zplus_mod_idemp_l. f_equal. lia. Qed.

(** One step of the probe: the next slot, or slot 0 after the last one. *)
Lemma slot_next T i : 0 ≤ i < T → slot T i 1 = if i + 1 =? T then 0 else i + 1.
Proof.
  intros. unfold slot. destruct (Z.eqb_spec (i + 1) T) as [-> | ?].
  - apply Z_mod_same_full.
  - apply Z.mod_small. lia.
Qed.

Lemma slot_offset T i p : 0 ≤ p < T → slot T i ((p - i) mod T) = p.
Proof.
  intros. unfold slot. rewrite Zplus_mod_idemp_r.
  replace (i + (p - i)) with p by lia. by apply Z.mod_small.
Qed.

Lemma slot_inj T :
  0 < T → ∀ i j k, 0 ≤ j < T → 0 ≤ k < T → slot T i j = slot T i k → j = k.
Proof.
  unfold slot. intros HT i j k Hj Hk Heq.
  assert (slot T (slot T i j) (T - (i mod T))
          = slot T (slot T i k) (T - (i mod T)))
    as Heq' by (unfold slot; by rewrite Heq).
  unfold slot in Heq'. rewrite !Zplus_mod_idemp_l in Heq'.
  pose proof (Z.mod_pos_bound i T HT).
  pose proof (Z_div_mod_eq_full i T).
  replace (i + j + (T - i mod T)) with (j + (i / T + 1) * T) in Heq' by lia.
  replace (i + k + (T - i mod T)) with (k + (i / T + 1) * T) in Heq' by lia.
  rewrite !Z.mod_add in Heq' by lia.
  by rewrite !Z.mod_small in Heq' by lia.
Qed.

Lemma offset_range T : 0 < T → ∀ i p, 0 ≤ (p - i) mod T < T.
Proof. intros HT i p. apply Z.mod_pos_bound. lia. Qed.

Lemma offset_slot T :
  0 < T → ∀ i k, 0 ≤ k < T → (slot T i k - i) mod T = k.
Proof.
  intros HT i k Hk. apply (slot_inj T HT i); [by apply offset_range | done |].
  apply slot_offset. by apply slot_range.
Qed.

Lemma lookup_slot (es : list HashEntry) T i k :
  0 < T → Z.of_nat (length es) = T → ∃ e, es !! Z.to_nat (slot T i k) = Some e.
Proof.
  intros HT Hlen. pose proof (slot_range T HT i k).
  apply lookup_lt_is_Some. lia.
Qed.

Lemma first_stop_shift stop es T i k :
  0 < T → 0 ≤ k →
  first_stop stop es T i (k + 1) → first_stop stop es T (slot T i 1) k.
Proof.
  intros HT Hk (_ & Hbefore & Hat). split; [done | split].
  - intros j Hj. rewrite slot_succ by done. apply Hbefore. lia.
  - by rewrite slot_succ.
Qed.

Lemma first_stop_exists stop es T i (q : nat) e :
  0 < T → Z.of_nat (length es) = T → 0 ≤ i < T →
  es !! q = Some e → stop e = true →
  ∃ k, 0 ≤ k ≤ (Z.of_nat q - i) mod T ∧ first_stop stop es T i k.
Proof.
  intros HT Hlen Hi Hq Hstop.
  assert (∀ n : nat,
    (∀ j, 0 ≤ j < Z.of_nat n →
       ∃ e, es !! Z.to_nat (slot T i j) = Some e ∧ stop e = false) ∨
    (∃ k, 0 ≤ k < Z.of_nat n ∧ first_stop stop es T i k)) as Haux.
  { induction n as [| n [IH | (k & Hk & IH)]].
    - left. intros j Hj. lia.
    - destruct (lookup_slot es T i (Z.of_nat n) HT Hlen) as [e' He'].
      destruct (stop e') eqn:Hs.
      + right. exists (Z.of_nat n). split; [lia |].
        split; [lia | split; [done | eauto]].
      + left. intros j Hj.
        destruct (decide (j = Z.of_nat n)) as [-> | ?]; [eauto |].
        apply IH. lia.
    - right. exists k. split; [lia | done]. }
  pose proof (offset_range T HT i (Z.of_nat q)) as Hd.
  assert (0 ≤ Z.of_nat q < T) as Hq'.
  { apply lookup_lt_Some in Hq. lia. }
  destruct (Haux (Z.to_nat ((Z.of_nat q - i) mod T))) as [Hno | (k & Hk & Hfs)].
  - exists ((Z.of_nat q - i) mod T). split; [lia |].
    split; [lia | split].
    + intros j Hj. apply Hno. lia.
    + rewrite slot_offset by done. rewrite Nat2Z.id. eauto.
  - exists k. split; [lia | done].
Qed.

(** ** The probe loops *)

(** The loop of lookup leaves at the first slot that is Empty or matches. *)
Lemma lookup_loop_spec t itemHash item cmpFunc (n : nat) :
  0 < tableSize t →
  ∀ fuel i c,
    0 ≤ i < tableSize t →
    first_stop (lookup_stop cmpFunc itemHash item) (pEntries t) (tableSize t)
      i (Z.of_nat n) →
    (n < fuel)%nat →
    lookup_loop fuel t itemHash item cmpFunc i c
      = Done (slot (tableSize t) i (Z.of_nat n), c + Z.of_nat n).
Proof.
  intros HT. induction n as [| n IH]; intros fuel i c Hi Hfs Hfuel;
    (destruct fuel as [| fuel]; [lia |]); simpl lookup_loop.
  - destruct Hfs as (_ & _ & e & He & Hs).
    rewrite slot_0 in * by done.
    rewrite (proj2 (load_Done _ _ _)) by (split; [lia | done]). simpl.
    unfold lookup_stop, is_empty in Hs. rewrite Z.add_0_r.
    destruct (data e =? NULL); [done |]. simpl in Hs. by rewrite Hs.
  - pose proof Hfs as (_ & Hb & e' & He' & Hs').
    destruct (Hb 0) as (e & He & Hs); [lia |].
    rewrite slot_0 in He by done.
    rewrite (proj2 (load_Done _ _ _)) by (split; [lia | done]). simpl.
    unfold lookup_stop, is_empty in Hs.
    apply orb_false_iff in Hs as [Hs1 Hs2]. rewrite Hs1, Hs2.
    replace (Z.of_nat (S n)) with (Z.of_nat n + 1) in * by lia.
    apply first_stop_shift in Hfs; [| done | lia].
    pose proof (slot_next _ i Hi) as Hnext.
    pose proof (slot_range _ HT i 1).
    rewrite <- (slot_succ (tableSize t)).
    destruct (Z.eqb_spec (i + 1) (tableSize t)) as [Hwrap | Hwrap].
    + destruct (Z.eqb_spec (tableSize t) 1) as [H1 | H1].
      * exfalso. assert (i = 0) as -> by lia.
        assert (slot (tableSize t) 0 (Z.of_nat n + 1) = 0) as Hz.
        { pose proof (slot_range _ HT 0 (Z.of_nat n + 1)). lia. }
        rewrite Hz in He'. simplify_eq.
        unfold lookup_stop, is_empty in Hs'. by rewrite Hs1, Hs2 in Hs'.
      * rewrite (IH fuel 0 (c + 1)); [| lia | by rewrite <- Hnext | lia].
        rewrite Hnext. f_equal. f_equal. lia.
    + rewrite (IH fuel (i + 1) (c + 1)); [| lia | by rewrite <- Hnext | lia].
      rewrite Hnext. f_equal. f_equal. lia.
Qed.

(** The loop of remove leaves at the first slot that is Empty or holds the
    item; there one more iteration decides. *)
Lemma remove_loop_spec t item (n : nat) :
  0 < tableSize t →
  ∀ fuel i,
    0 ≤ i < tableSize t →
    first_stop (remove_stop item) (pEntries t) (tableSize t) i (Z.of_nat n) →
    (n < fuel)%nat →
    remove_loop fuel t item i
      = remove_loop 1 t item (slot (tableSize t) i (Z.of_nat n)).
Proof.
  intros HT. induction n as [| n IH]; intros fuel i Hi Hfs Hfuel;
    (destruct fuel as [| fuel]; [lia |]).
  - destruct Hfs as (_ & _ & e & He & Hs).
    rewrite slot_0 in * by done. simpl.
    rewrite (proj2 (load_Done _ _ _)) by (split; [lia | done]). simpl.
    unfold remove_stop, is_empty in Hs.
    destruct (data e =? NULL); [done |]. simpl in Hs. by rewrite Hs.
  - pose proof Hfs as (_ & Hb & e' & He' & Hs').
    destruct (Hb 0) as (e & He & Hs); [lia |].
    rewrite slot_0 in He by done. simpl remove_loop at 1.
    rewrite (proj2 (load_Done _ _ _)) by (split; [lia | done]). simpl bind.
    unfold remove_stop, is_empty in Hs.
    apply orb_false_iff in Hs as [Hs1 Hs2]. rewrite Hs1, Hs2.
    replace (Z.of_nat (S n)) with (Z.of_nat n + 1) in * by lia.
    apply first_stop_shift in Hfs; [| done | lia].
    pose proof (slot_next _ i Hi) as Hnext.
    pose proof (slot_range _ HT i 1).
    rewrite <- (slot_succ (tableSize t)).
    destruct (Z.eqb_spec (i + 1) (tableSize t)) as [Hwrap | Hwrap].
    + destruct (Z.eqb_spec (tableSize t) 1) as [H1 | H1].
      * exfalso. assert (i = 0) as -> by lia.
        assert (slot (tableSize t) 0 (Z.of_nat n + 1) = 0) as Hz.
        { pose proof (slot_range _ HT 0 (Z.of_nat n + 1)). lia. }
        rewrite Hz in He'. simplify_eq.
        unfold remove_stop, is_empty in Hs'. by rewrite Hs1, Hs2 in Hs'.
      * rewrite (IH fuel 0); [| lia | by rewrite <- Hnext | lia].
        by rewrite Hnext.
    + rewrite (IH fuel (i + 1)); [| lia | by rewrite <- Hnext | lia].
      by rewrite Hnext.
Qed.

(** The inner loop of resize leaves at the first Empty slot. *)
Lemma resize_probe_spec pNewEntries newSize m (n : nat) :
  0 ≤ m → newSize = 2 ^ m →
  ∀ fuel i,
    0 ≤ i < newSize →
    first_stop is_empty pNewEntries newSize i (Z.of_nat n) →
    (n < fuel)%nat →
    resize_probe fuel pNewEntries newSize i
      = Done (slot newSize i (Z.of_nat n)).
Proof.
  intros Hm Hsize.
  assert (0 < newSize) as HT by (subst; by apply Z.pow_pos_nonneg).
  induction n as [| n IH]; intros fuel i Hi Hfs Hfuel;
    (destruct fuel as [| fuel]; [lia |]); simpl.
  - destruct Hfs as (_ & _ & e & He & Hs).
    rewrite slot_0 in * by done.
    rewrite (proj2 (load_Done _ _ _)) by (split; [lia | done]). simpl.
    unfold is_empty in Hs. by rewrite Hs.
  - pose proof Hfs as (_ & Hb & _).
    destruct (Hb 0) as (e & He & Hs); [lia |].
    rewrite slot_0 in He by done.
    rewrite (proj2 (load_Done _ _ _)) by (split; [lia | done]). simpl.
    unfold is_empty in Hs. rewrite Hs.
    replace (Z.of_nat (S n)) with (Z.of_nat n + 1) in * by lia.
    apply first_stop_shift in Hfs; [| done | lia].
    fold (home newSize (i + 1)). rewrite (home_mod _ _ m) by done.
    fold (slot newSize i 1). rewrite <- (slot_succ newSize).
    apply IH; [apply slot_range; lia | done | lia].
Qed.

(** ** Counting slots *)

Lemma count_if_nonneg P es : 0 ≤ count_if P es ≤ Z.of_nat (length es).
Proof. induction es as [| e es IH]; simpl; [lia |]. destruct (P e); lia. Qed.

Lemma count_if_app P es1 es2 :
  count_if P (es1 ++ es2) = count_if P es1 + count_if P es2.
Proof. induction es1 as [| e es1 IH]; simpl; lia. Qed.

Lemma count_if_insert P es (q : nat) e0 x :
  es !! q = Some e0 →
  count_if P (<[q := x]> es)
    = count_if P es - (if P e0 then 1 else 0) + (if P x then 1 else 0).
Proof.
  intros Hq. rewrite insert_take_drop by (by eapply lookup_lt_Some).
  assert (count_if P es = count_if P (take q es ++ e0 :: drop (S q) es)) as ->
    by (by rewrite take_drop_middle).
  rewrite !count_if_app. simpl. lia.
Qed.

Lemma count_if_zero P es :
  count_if P es = 0 ↔ ∀ (p : nat) e, es !! p = Some e → P e = false.
Proof.
  induction es as [| e es IH]; simpl.
  - split; [intros _ p e' H; by destruct p | done].
  - pose proof (count_if_nonneg P es). split.
    + intros H0 [| p] e' Hp; simpl in Hp.
      * simplify_eq. destruct (P e'); [lia | done].
      * apply (proj1 IH) with p; [destruct (P e); lia | done].
    + intros Hall. rewrite (Hall 0%nat e) by done.
      rewrite (proj2 IH); [done |]. intros p e' Hp. by apply (Hall (S p)).
Qed.

Lemma count_if_replicate P n e : P e = false → count_if P (replicate n e) = 0.
Proof.
  intros. apply count_if_zero. intros p e' [-> _]%lookup_replicate. done.
Qed.

Lemma count_live_dead es :
  count_if is_live es + count_if is_tombstone es
    = count_if (λ e, negb (is_empty e)) es.
Proof.
  induction es as [| e es IH]; simpl; [done |].
  rewrite <- IH. unfold is_live, is_tombstone, is_empty.
  destruct (Z.eqb_spec (data e) NULL) as [H0 | H0],
           (Z.eqb_spec (data e) HASH_TOMBSTONE) as [H1 | H1]; simpl; try lia.
  rewrite H0 in H1. done.
Qed.

(** An array with fewer non-Empty slots than slots has an Empty slot. *)
Lemma exists_empty es :
  count_if (λ e, negb (is_empty e)) es < Z.of_nat (length es) →
  ∃ (q : nat) e, es !! q = Some e ∧ is_empty e = true.
Proof.
  induction es as [| e es IH]; simpl; [lia |].
  destruct (is_empty e) eqn:He; simpl.
  - intros _. by exists 0%nat, e.
  - intros Hlt. destruct IH as (q & e' & Hq & He'); [lia |].
    by exists (S q), e'.
Qed.

Lemma live_not_empty e : is_live e = true → is_empty e = false.
Proof. unfold is_live, is_empty. by destruct (data e =? NULL). Qed.

Lemma live_not_tombstone e : is_live e = true → is_tombstone e = false.
Proof.
  unfold is_live, is_tombstone.
  destruct (data e =? NULL), (data e =? HASH_TOMBSTONE); done.
Qed.

Lemma is_live_item h item : valid_item item → is_live (mkEntry h item) = true.
Proof.
  intros [H0 H1]. unfold is_live. simpl.
  destruct (Z.eqb_spec item NULL), (Z.eqb_spec item HASH_TOMBSTONE); done.
Qed.

(** ** More fuel does not change a result *)

Lemma bind_Done {A B} (m : outcome A) (k : A → outcome B) b :
  bind m k = Done b ↔ ∃ a, m = Done a ∧ k a = Done b.
Proof.
  destruct m; simpl; split; try done; try (by intros (? & ? & ?)).
  - eauto.
  - by intros (? & [= ->] & ?).
Qed.

Lemma lookup_loop_mono fuel fuel' t itemHash item cmpFunc i c r :
  (fuel ≤ fuel')%nat →
  lookup_loop fuel t itemHash item cmpFunc i c = Done r →
  lookup_loop fuel' t itemHash item cmpFunc i c = Done r.
Proof.
  revert fuel' i c.
  induction fuel as [| fuel IH]; intros fuel' i c Hle H; [done |].
  destruct fuel' as [| fuel']; [lia |]. simpl in *.
  destruct (load (pEntries t) i) as [e | | | |]; simpl in *; try done.
  repeat case_match; try done; apply IH; done || lia.
Qed.

Lemma remove_loop_mono fuel fuel' t item i r :
  (fuel ≤ fuel')%nat →
  remove_loop fuel t item i = Done r → remove_loop fuel' t item i = Done r.
Proof.
  revert fuel' i.
  induction fuel as [| fuel IH]; intros fuel' i Hle H; [done |].
  destruct fuel' as [| fuel']; [lia |]. simpl in *.
  destruct (load (pEntries t) i) as [e | | | |]; simpl in *; try done.
  repeat case_match; try done; apply IH; done || lia.
Qed.

Lemma resize_probe_mono fuel fuel' pNewEntries newSize i r :
  (fuel ≤ fuel')%nat →
  resize_probe fuel pNewEntries newSize i = Done r →
  resize_probe fuel' pNewEntries newSize i = Done r.
Proof.
  revert fuel' i.
  induction fuel as [| fuel IH]; intros fuel' i Hle H; [done |].
  destruct fuel' as [| fuel']; [lia |]. simpl in *.
  destruct (load pNewEntries i) as [e | | | |]; simpl in *; try done.
  case_match; try done; apply IH; done || lia.
Qed.

Lemma resize_loop_mono fuel fuel' t newSize i pNewEntries r :
  (fuel ≤ fuel')%nat →
  resize_loop fuel t newSize i pNewEntries = Done r →
  resize_loop fuel' t newSize i pNewEntries = Done r.
Proof.
  intros Hle. revert pNewEntries.
  induction i as [| i IH]; intros pNewEntries H; [done |]. simpl in *.
  destruct (load (pEntries t) (Z.of_nat i)) as [e | | | |]; simpl in *;
    try done.
  case_match; [| by apply IH].
  apply bind_Done in H as (newIdx & Hprobe & H).
  rewrite (resize_probe_mono _ _ _ _ _ _ Hle Hprobe). simpl. by apply IH.
Qed.

Lemma resizeHash_mono fuel fuel' t newSize r :
  (fuel ≤ fuel')%nat →
  resizeHash fuel t newSize = Done r → resizeHash fuel' t newSize = Done r.
Proof.
  intros Hle. unfold resizeHash. destruct (calloc newSize); [| done].
  intros (es & Hloop & H)%bind_Done.
  by rewrite (resize_loop_mono _ _ _ _ _ _ _ Hle Hloop).
Qed.

Lemma lookup_add_mono fuel fuel' t pEntry itemHash item r :
  (fuel ≤ fuel')%nat →
  lookup_add fuel t pEntry itemHash item = Done r →
  lookup_add fuel' t pEntry itemHash item = Done r.
Proof.
  intros Hle H. unfold lookup_add in *.
  apply bind_Done in H as (n & Hn & H). rewrite Hn. simpl in *.
  apply bind_Done in H as (s & Hs & H). rewrite Hs. simpl in *.
  apply bind_Done in H as (l & Hl & H). rewrite Hl. simpl in *.
  apply bind_Done in H as (r' & Hr' & H). rewrite Hr'. simpl in *.
  case_match; [| done].
  apply bind_Done in H as (newSize & Hns & H). rewrite Hns. simpl in *.
  apply bind_Done in H as ([ok t2] & Hr & H).
  by rewrite (resizeHash_mono _ _ _ _ _ Hle Hr).
Qed.

Lemma lookup_counting_mono fuel fuel' t itemHash item cmpFunc doAdd r :
  (fuel ≤ fuel')%nat →
  lookup_counting fuel t itemHash item cmpFunc doAdd = Done r →
  lookup_counting fuel' t itemHash item cmpFunc doAdd = Done r.
Proof.
  intros Hle. unfold lookup_counting.
  intros ([p c] & Hloop & H)%bind_Done.
  rewrite (lookup_loop_mono _ _ _ _ _ _ _ _ _ Hle Hloop). simpl.
  apply bind_Done in H as (e & -> & H). simpl.
  repeat case_match; try done.
  apply bind_Done in H as ([res t'] & Hadd & H).
  by rewrite (lookup_add_mono _ _ _ _ _ _ _ Hle Hadd).
Qed.

Lemma dvmHashTableLookup_mono fuel fuel' t itemHash item cmpFunc doAdd r :
  (fuel ≤ fuel')%nat →
  dvmHashTableLookup fuel t itemHash item cmpFunc doAdd = Done r →
  dvmHashTableLookup fuel' t itemHash item cmpFunc doAdd = Done r.
Proof.
  intros Hle. unfold dvmHashTableLookup.
  intros ([[res t'] c] & Hl & H)%bind_Done.
  by rewrite (lookup_counting_mono _ _ _ _ _ _ _ _ Hle Hl).
Qed.

(** ** Updating a slot *)

Lemma alter_insert {A} (f : A → A) (l : list A) (i : nat) x :
  l !! i = Some x → alter f i l = <[i := f x]> l.
Proof.
  intros Hi. apply list_eq. intros j.
  destruct (decide (i = j)) as [<- | Hne].
  - rewrite list_lookup_alter_eq, Hi.
    by rewrite list_lookup_insert_eq by (by eapply lookup_lt_Some).
  - by rewrite list_lookup_alter_ne, list_lookup_insert_ne.
Qed.

Lemma nonempty_at_insert es (q : nat) x i :
  nonempty_at es i → is_empty x = false → nonempty_at (<[q := x]> es) i.
Proof.
  intros (e & He & Hne) Hx. unfold nonempty_at.
  destruct (decide (q = Z.to_nat i)) as [-> | Hq].
  - exists x. by rewrite list_lookup_insert_eq by (by eapply lookup_lt_Some).
  - exists e. by rewrite list_lookup_insert_ne.
Qed.

(** Writing a non-Empty entry keeps every stored entry reachable, provided
    the entry written is reachable itself when it is Occupied. *)
Lemma path_ok_update T es (q : nat) x :
  (q < length es)%nat →
  path_ok T es →
  is_empty x = false →
  (is_live x = true →
   ∀ j, 0 ≤ j < (Z.of_nat q - home T (hashValue x)) mod T →
     nonempty_at es (slot T (home T (hashValue x)) j)) →
  path_ok T (<[q := x]> es).
Proof.
  intros Hq Hpath Hx Hnew p e Hp Hlive j Hj.
  apply nonempty_at_insert; [| done].
  destruct (decide (q = p)) as [-> | Hne].
  - rewrite list_lookup_insert_eq in Hp by done. simplify_eq. by apply Hnew.
  - rewrite list_lookup_insert_ne in Hp by done. by eapply Hpath.
Qed.

Lemma live_in_elem_of es e : live_in es e ↔ e ∈ es ∧ is_live e = true.
Proof.
  unfold live_in. rewrite list_elem_of_lookup. split.
  - intros (p & Hp & Hlive). eauto.
  - intros [(p & Hp) Hlive]. eauto.
Qed.

Lemma live_in_app es1 es2 e :
  live_in (es1 ++ es2) e ↔ live_in es1 e ∨ live_in es2 e.
Proof. rewrite !live_in_elem_of, elem_of_app. tauto. Qed.

Lemma live_in_singleton x e : live_in [x] e ↔ e = x ∧ is_live x = true.
Proof.
  rewrite live_in_elem_of, list_elem_of_singleton.
  split; intros [-> ?]; done.
Qed.

(** Overwriting a slot that is not Occupied with an Occupied entry. *)
Lemma live_in_insert es (q : nat) e0 x e :
  es !! q = Some e0 → is_live e0 = false → is_live x = true →
  live_in (<[q := x]> es) e ↔ live_in es e ∨ e = x.
Proof.
  intros Hq H0 Hx. split.
  - intros (p & Hp & Hlive). destruct (decide (q = p)) as [-> | Hne].
    + rewrite list_lookup_insert_eq in Hp by (by eapply lookup_lt_Some).
      right. congruence.
    + rewrite list_lookup_insert_ne in Hp by done. left. by exists p.
  - intros [(p & Hp & Hlive) | ->].
    + exists p. split; [| done]. rewrite list_lookup_insert_ne; [done |].
      intros ->. congruence.
    + exists q. split; [| done].
      by rewrite list_lookup_insert_eq by (by eapply lookup_lt_Some).
Qed.

(** ** resizeHash *)

Lemma fresh_array_calloc newSize m :
  0 ≤ m → newSize = 2 ^ m →
  ∃ es, calloc newSize = Some es ∧ fresh_array newSize es ∧
        count_if is_live es = 0 ∧ ∀ e, ¬ live_in es e.
Proof.
  intros Hm ->. assert (0 < 2 ^ m) by (by apply Z.pow_pos_nonneg).
  unfold calloc. destruct (Z.leb_spec 0 (2 ^ m)); [| lia].
  eexists. split; [done |].
  assert (∀ (p : nat) e,
    replicate (Z.to_nat (2 ^ m)) (mkEntry 0 NULL) !! p = Some e →
    e = mkEntry 0 NULL) as Hall.
  { by intros p e [-> _]%lookup_replicate. }
  split; [| split].
  - split; [rewrite length_replicate; lia | split].
    + intros p e ->%Hall. split; [unfold is_u4, U4_MOD; simpl; lia | done].
    + intros p e ->%Hall. done.
  - by apply count_if_replicate.
  - intros e (p & ->%Hall & Hlive). done.
Qed.

Lemma fresh_array_has_empty newSize es :
  fresh_array newSize es → count_if is_live es < newSize →
  ∃ (q : nat) e, es !! q = Some e ∧ is_empty e = true.
Proof.
  intros (Hlen & Hall & _) Hcount. apply exists_empty.
  rewrite <- count_live_dead.
  assert (count_if is_tombstone es = 0) as ->; [| lia].
  apply count_if_zero. intros p e Hp. by apply (Hall p).
Qed.

(** Writing an entry into the slot a probe from its home slot has ended at,
    when the probe does not pass Empty slots. *)
Lemma path_ok_place stop T es k x :
  0 < T →
  Z.of_nat (length es) = T →
  path_ok T es →
  (∀ e, stop e = false → is_empty e = false) →
  first_stop stop es T (home T (hashValue x)) k → k < T →
  is_empty x = false →
  path_ok T (<[Z.to_nat (slot T (home T (hashValue x)) k) := x]> es).
Proof.
  intros HT Hlen Hpath Hstop (Hk & Hb & _) HkT Hx.
  pose proof (slot_range T HT (home T (hashValue x)) k).
  apply path_ok_update; [lia | done | done |].
  intros _ j Hj. rewrite Z2Nat.id in Hj by lia.
  rewrite offset_slot in Hj by (done || lia).
  destruct (Hb j Hj) as (e & He & Hs). exists e. auto.
Qed.

Lemma home_range T n h : 0 ≤ n → T = 2 ^ n → 0 ≤ home T h < T.
Proof.
  intros Hn HT. rewrite (home_mod T h n) by done.
  apply Z.mod_pos_bound. subst. by apply Z.pow_pos_nonneg.
Qed.

Lemma empty_not_live e : is_empty e = true → is_live e = false.
Proof. unfold is_empty, is_live. by intros ->. Qed.

Lemma entry_eta e : mkEntry (hashValue e) (data e) = e.
Proof. by destruct e. Qed.

(** The loop of resize moves the Occupied entries of the slots below [i]
    into the new array. *)
Lemma resize_loop_spec t newSize m fuel :
  0 ≤ m ≤ 30 → newSize = 2 ^ m → (Z.to_nat newSize ≤ fuel)%nat →
  (∀ (p : nat) e, pEntries t !! p = Some e → is_u4 (hashValue e)) →
  ∀ (i : nat) new,
    (i ≤ length (pEntries t))%nat →
    fresh_array newSize new →
    count_if is_live new + count_if is_live (take i (pEntries t)) < newSize →
    ∃ new',
      resize_loop fuel t newSize i new = Done new' ∧
      fresh_array newSize new' ∧
      count_if is_live new'
        = count_if is_live new + count_if is_live (take i (pEntries t)) ∧
      (∀ e, live_in new' e ↔ live_in new e ∨ live_in (take i (pEntries t)) e).
Proof.
  intros Hm Hsize Hfuel Hu4.
  assert (0 < newSize) as HT by (subst; apply Z.pow_pos_nonneg; lia).
  induction i as [| i IH]; intros new Hi Hfresh Hcount.
  - exists new. simpl. split; [done |]. split; [done |]. split; [lia |].
    intros e. split; [auto |]. intros [? | (p & Hp & _)]; [done |].
    by rewrite take_0 in Hp.
  - destruct (lookup_lt_is_Some_2 (pEntries t) i) as [e He]; [lia |].
    rewrite (take_S_r _ _ _ He) in *. rewrite count_if_app in *.
    simpl in Hcount |- *.
    rewrite (load_lookup _ _ _ He). simpl bind.
    change (negb (data e =? NULL) && negb (data e =? HASH_TOMBSTONE))
      with (is_live e) in *.
    pose proof (count_if_nonneg is_live (take i (pEntries t))) as Hnn.
    destruct (is_live e) eqn:Hlive.
    + fold (home newSize (u4_to_int (hashValue e))).
      pose proof (Hu4 _ _ He) as Hh.
      rewrite (home_u4_to_int _ _ m) by done.
      pose proof (home_range newSize m (hashValue e) (proj1 Hm) Hsize) as Hhome.
      destruct (fresh_array_has_empty newSize new) as (q & e0 & Hq & He0);
        [done | lia |].
      pose proof Hfresh as (Hlen & Hall & Hpath).
      destruct (first_stop_exists is_empty new newSize
                  (home newSize (hashValue e)) q e0)
        as (k & Hk & Hfs); [done .. |].
      pose proof (offset_range newSize HT (home newSize (hashValue e))
                    (Z.of_nat q)).
      rewrite (resize_probe_spec _ _ m (Z.to_nat k));
        [| lia | done | done | by rewrite Z2Nat.id by lia | lia].
      rewrite Z2Nat.id by lia. simpl bind.
      rewrite u4_int_u4 by done. rewrite entry_eta.
      pose proof Hfs as (_ & _ & e1 & He1 & Hs1).
      pose proof (empty_not_live _ Hs1) as Hdead1.
      pose proof (live_not_empty _ Hlive) as Hne.
      pose proof (live_not_tombstone _ Hlive) as Hnt.
      set (q' := Z.to_nat (slot newSize (home newSize (hashValue e)) k)) in *.
      destruct (IH (<[q' := e]> new)) as (new' & Hloop & Hfresh' & Hc' & Hl').
      * lia.
      * split; [by rewrite length_insert | split].
        -- intros p x Hp.
           apply list_lookup_insert_Some in Hp as [(_ & <- & _) | (_ & Hp)];
             [done | by apply (Hall p)].
        -- apply (path_ok_place is_empty); [done .. | lia | done].
      * rewrite (count_if_insert _ _ _ _ _ He1), Hdead1, Hlive. lia.
      * exists new'. split; [done |]. split; [done |]. split.
        -- rewrite Hc', (count_if_insert _ _ _ _ _ He1), Hdead1, Hlive. lia.
        -- intros x. rewrite Hl', live_in_app, live_in_singleton.
           rewrite (live_in_insert _ _ _ _ _ He1 Hdead1 Hlive). tauto.
    + destruct (IH new) as (new' & Hloop & Hfresh' & Hc' & Hl');
        [lia | done | lia |].
      exists new'. split; [done |]. split; [done |]. split; [lia |].
      intros x. rewrite Hl', live_in_app, live_in_singleton.
      split; [tauto |]. intros [? | [? | [-> ?]]]; [tauto | tauto | congruence].
Qed.

(** resizeHash on a table of consistent shape: the new table has the new
    size, no Tombstone, the same Occupied entries, each reachable. *)
Lemma resizeHash_spec fuel t newSize m :
  wf t →
  0 ≤ m ≤ 30 → newSize = 2 ^ m → (Z.to_nat newSize ≤ fuel)%nat →
  count_if is_live (pEntries t) < newSize →
  ∃ es,
    resizeHash fuel t newSize
      = Done (true, mkTable newSize (numEntries t) 0 es (freeFunc t) (freed t)) ∧
    fresh_array newSize es ∧
    count_if is_live es = count_if is_live (pEntries t) ∧
    (∀ e, live_in es e ↔ live_in (pEntries t) e).
Proof.
  intros [_ Hlen Hu4] Hm Hsize Hfuel Hcount.
  destruct (fresh_array_calloc newSize m) as (new & Hcalloc & Hfresh & Hc0 & Hl0);
    [lia | done |].
  unfold resizeHash. rewrite Hcalloc.
  assert (Z.to_nat (tableSize t) = length (pEntries t)) as -> by lia.
  destruct (resize_loop_spec t newSize m fuel Hm Hsize Hfuel Hu4
              (length (pEntries t)) new)
    as (es & Hloop & Hfresh' & Hc & Hl); [done | done | |].
  { rewrite firstn_all. lia. }
  rewrite firstn_all in *. exists es. rewrite Hloop. simpl.
  split; [done |]. split; [done |]. split; [lia |].
  intros e. rewrite Hl. split; [| tauto]. intros [? | ?]; [| done].
  by destruct (Hl0 e).
Qed.

(** ** dvmHashTableLookup *)

Lemma wf_size t : wf t → 0 < tableSize t ≤ 2 ^ 30.
Proof.
  intros [(n & Hn & ->) _ _]. split; [apply Z.pow_pos_nonneg; lia |].
  apply Z.pow_le_mono_r; lia.
Qed.

Lemma wf_home_range t h : wf t → 0 ≤ home (tableSize t) h < tableSize t.
Proof. intros [(n & Hn & Hsize) _ _]. apply (home_range _ n); [lia | done]. Qed.

Lemma Inv_room t : Inv t → numEntries t + numDeadEntries t < tableSize t.
Proof.
  intros [[Hwf _ _ _] Hload]. pose proof (wf_size t Hwf).
  unfold load_ok, LOAD_DENOM, LOAD_NUMER in Hload. lia.
Qed.

Lemma consistent_has_empty t :
  consistent t → numEntries t + numDeadEntries t < tableSize t →
  ∃ (q : nat) e, pEntries t !! q = Some e ∧ is_empty e = true.
Proof.
  intros [[_ Hlen _] Hlive Hdead _] Hroom. apply exists_empty.
  rewrite <- count_live_dead. lia.
Qed.

Lemma lookup_stop_false cmpFunc itemHash item e :
  lookup_stop cmpFunc itemHash item e = false → is_empty e = false.
Proof. unfold lookup_stop. by intros [? _]%orb_false_iff. Qed.

(** On a table with an Empty slot the probe of lookup ends within
    [tableSize] steps. *)
Lemma lookup_probe t cmpFunc itemHash item :
  consistent t → numEntries t + numDeadEntries t < tableSize t →
  ∃ k e,
    0 ≤ k < tableSize t ∧
    first_stop (lookup_stop cmpFunc itemHash item) (pEntries t) (tableSize t)
      (home (tableSize t) itemHash) k ∧
    pEntries t !! Z.to_nat (slot (tableSize t) (home (tableSize t) itemHash) k)
      = Some e ∧
    lookup_stop cmpFunc itemHash item e = true.
Proof.
  intros Hcon Hroom.
  destruct (consistent_has_empty t Hcon Hroom) as (q & e0 & Hq & He0).
  pose proof (con_wf t Hcon) as Hwf.
  pose proof (wf_size t Hwf) as HT.
  pose proof (wf_home_range t itemHash Hwf) as Hhome.
  destruct (first_stop_exists (lookup_stop cmpFunc itemHash item) (pEntries t)
              (tableSize t) (home (tableSize t) itemHash) q e0)
    as (k & Hk & Hfs); [lia | apply Hwf | done | done | |].
  { unfold lookup_stop. by rewrite He0. }
  pose proof (offset_range (tableSize t) (proj1 HT)
                (home (tableSize t) itemHash) (Z.of_nat q)).
  pose proof Hfs as (_ & _ & e & He & Hs).
  exists k, e. split; [lia | done].
Qed.

Lemma lookup_counting_eval fuel t itemHash item cmpFunc doAdd k e :
  wf t →
  first_stop (lookup_stop cmpFunc itemHash item) (pEntries t) (tableSize t)
    (home (tableSize t) itemHash) k →
  pEntries t !! Z.to_nat (slot (tableSize t) (home (tableSize t) itemHash) k)
    = Some e →
  (Z.to_nat k < fuel)%nat →
  lookup_counting fuel t itemHash item cmpFunc doAdd =
    if is_empty e then
      if doAdd then
        '(r, t') <- lookup_add fuel t
                      (slot (tableSize t) (home (tableSize t) itemHash) k)
                      itemHash item ;
        Done (r, t', k)
      else Done (NULL, t, k)
    else Done (data e, t, k).
Proof.
  intros Hwf Hfs He Hfuel. pose proof (wf_size t Hwf) as HT.
  pose proof Hfs as (Hk & _).
  unfold lookup_counting. fold (home (tableSize t) itemHash).
  rewrite (lookup_loop_spec _ _ _ _ (Z.to_nat k));
    [| lia | by apply wf_home_range | by rewrite Z2Nat.id | done].
  rewrite Z2Nat.id by done. simpl bind.
  pose proof (slot_range (tableSize t) (proj1 HT)
                (home (tableSize t) itemHash) k).
  rewrite (proj2 (load_Done _ _ _)) by (split; [lia | done]). simpl bind.
  unfold is_empty. done.
Qed.

(** The table after the new entry is written and counted, before the check
    of the load. *)
Lemma add_entry_consistent t cmpFunc itemHash item k e0 :
  consistent t → is_u4 itemHash → valid_item item →
  first_stop (lookup_stop cmpFunc itemHash item) (pEntries t) (tableSize t)
    (home (tableSize t) itemHash) k →
  k < tableSize t →
  pEntries t !! Z.to_nat (slot (tableSize t) (home (tableSize t) itemHash) k)
    = Some e0 →
  is_empty e0 = true →
  let t1 :=
    set_counts
      (set_entry t (slot (tableSize t) (home (tableSize t) itemHash) k)
         (mkEntry itemHash item))
      (numEntries t + 1) (numDeadEntries t) in
  consistent t1 ∧
  ∀ e, live_in (pEntries t1) e
       ↔ live_in (pEntries t) e ∨ e = mkEntry itemHash item.
Proof.
  intros [Hwf Hlive Hdead Hpath] Hh Hitem Hfs Hk He0 Hempty. simpl.
  pose proof (wf_size t Hwf) as HT. destruct Hwf as [Hpow Hlen Hu4].
  pose proof (is_live_item itemHash item Hitem) as Hnew.
  pose proof (empty_not_live _ Hempty) as Hdead0.
  assert (is_tombstone e0 = false) as Htomb0.
  { unfold is_empty, is_tombstone in *.
    apply Z.eqb_eq in Hempty. rewrite Hempty. done. }
  split; [split; [split |..] |]; simpl.
  - done.
  - by rewrite length_insert.
  - intros p e Hp.
    apply list_lookup_insert_Some in Hp as [(_ & <- & _) | (_ & Hp)];
      [done | by apply (Hu4 p)].
  - rewrite (count_if_insert _ _ _ _ _ He0), Hdead0, Hnew. lia.
  - rewrite (count_if_insert _ _ _ _ _ He0), Htomb0.
    rewrite (live_not_tombstone _ Hnew). lia.
  - apply (path_ok_place (lookup_stop cmpFunc itemHash item)
             (tableSize t) (pEntries t) k (mkEntry itemHash item));
      [lia | done | done | apply lookup_stop_false | done | done |].
    by apply live_not_empty.
  - intros e. by apply (live_in_insert _ _ e0).
Qed.

Lemma pow2_times5 m : 0 ≤ m → 2 ^ m * LOAD_NUMER ≤ INT_MAX → m ≤ 28.
Proof.
  intros Hm Hle. destruct (decide (m ≤ 28)) as [| Hgt]; [done |].
  assert (2 ^ 29 ≤ 2 ^ m) by (apply Z.pow_le_mono_r; lia).
  unfold LOAD_NUMER, INT_MAX in Hle. lia.
Qed.

(** Adding an entry at the Empty slot the probe has ended at. *)
Lemma lookup_add_total fuel t cmpFunc itemHash item k e0 :
  Inv t → is_u4 itemHash → valid_item item →
  first_stop (lookup_stop cmpFunc itemHash item) (pEntries t) (tableSize t)
    (home (tableSize t) itemHash) k →
  k < tableSize t →
  pEntries t !! Z.to_nat (slot (tableSize t) (home (tableSize t) itemHash) k)
    = Some e0 →
  is_empty e0 = true →
  tableSize t * LOAD_NUMER ≤ INT_MAX →
  (Z.to_nat (2 * tableSize t) ≤ fuel)%nat →
  ∃ t',
    lookup_add fuel t (slot (tableSize t) (home (tableSize t) itemHash) k)
      itemHash item = Done (item, t') ∧
    added_to t itemHash item t'.
Proof.
  intros [Hcon Hload] Hh Hitem Hfs Hk He0 Hempty Hmax Hfuel.
  destruct (add_entry_consistent t cmpFunc itemHash item k e0)
    as [Hcon1 Hlive1]; [done .. |].
  pose proof (Inv_room t (conj Hcon Hload)) as Hroom.
  pose proof (wf_size t (con_wf t Hcon)) as HT.
  pose proof (count_if_nonneg is_live (pEntries t)) as Hnn.
  pose proof (count_if_nonneg is_tombstone (pEntries t)) as Hnd.
  pose proof (con_live t Hcon) as Hnl. pose proof (con_dead t Hcon) as Hdl.
  destruct (wf_pow2 t (con_wf t Hcon)) as (m & Hm & Hsize).
  assert (m ≤ 28) as Hm28 by (apply pow2_times5; [lia | by rewrite <- Hsize]).
  assert (tableSize t ≤ 2 ^ 28) as HT28.
  { rewrite Hsize. apply Z.pow_le_mono_r; lia. }
  unfold lookup_add. unfold load_ok, LOAD_DENOM, LOAD_NUMER, INT_MAX in *.
  rewrite int_in_range by (unfold INT_MIN, INT_MAX; lia). simpl bind.
  set (t1 := set_counts _ _ _) in *.
  rewrite int_in_range by (unfold INT_MIN, INT_MAX; lia). simpl bind.
  rewrite int_in_range by (unfold INT_MIN, INT_MAX; lia). simpl bind.
  rewrite int_in_range by (unfold INT_MIN, INT_MAX; lia). simpl bind.
  destruct (Z.ltb_spec (tableSize t * 5)
              ((numEntries t + 1 + numDeadEntries t) * 8)) as [Hfull | Hfits].
  - rewrite int_in_range by (unfold INT_MIN, INT_MAX; lia). simpl bind.
    destruct (resizeHash_spec fuel t1 (tableSize t * 2) (m + 1))
      as (es & Hr & (Hlen & Hall & Hpath) & Hc & Hl).
    + apply Hcon1.
    + lia.
    + rewrite Z.pow_add_r by lia. lia.
    + lia.
    + rewrite <- (con_live t1 Hcon1). simpl. lia.
    + rewrite Hr. simpl. eexists. split; [done |].
      assert (count_if is_tombstone es = 0) as Hnotomb.
      { apply count_if_zero. intros p e Hp. by apply (Hall p). }
      split; [split; [split; [split |..] |] |]; simpl.
      * exists (m + 1). split; [lia |]. rewrite Z.pow_add_r by lia. lia.
      * done.
      * intros p e Hp. by apply (Hall p).
      * rewrite Hc. apply (con_live t1 Hcon1).
      * done.
      * done.
      * unfold load_ok, LOAD_DENOM, LOAD_NUMER. simpl. lia.
      * split; [done |]. split; [done |]. split; [done |]. split.
        -- intros e. by rewrite Hl, Hlive1.
        -- right. unfold LOAD_DENOM, LOAD_NUMER. lia.
  - eexists. split; [done |].
    split; [split; [done |] |].
    + unfold load_ok, LOAD_DENOM, LOAD_NUMER. simpl. lia.
    + simpl. split; [done |]. split; [done |]. split; [done |].
      split; [done |]. by left.
Qed.

(** Whenever the branch that adds returns, it has added. *)
Lemma lookup_add_inv fuel t cmpFunc itemHash item k e0 r t' :
  Inv t → is_u4 itemHash → valid_item item →
  first_stop (lookup_stop cmpFunc itemHash item) (pEntries t) (tableSize t)
    (home (tableSize t) itemHash) k →
  k < tableSize t →
  pEntries t !! Z.to_nat (slot (tableSize t) (home (tableSize t) itemHash) k)
    = Some e0 →
  is_empty e0 = true →
  lookup_add fuel t (slot (tableSize t) (home (tableSize t) itemHash) k)
    itemHash item = Done (r, t') →
  r = item ∧ added_to t itemHash item t'.
Proof.
  intros HInv Hh Hitem Hfs Hk He0 Hempty Hadd.
  assert (tableSize t * LOAD_NUMER ≤ INT_MAX) as Hmax.
  { unfold lookup_add in Hadd.
    apply bind_Done in Hadd as (n & _ & Hadd).
    apply bind_Done in Hadd as (s & _ & Hadd).
    apply bind_Done in Hadd as (l & _ & Hadd).
    apply bind_Done in Hadd as (r' & Hr & _).
    apply int_Done in Hr. simpl in Hr. lia. }
  apply (lookup_add_mono _ (fuel `max` Z.to_nat (2 * tableSize t))) in Hadd;
    [| lia].
  destruct (lookup_add_total (fuel `max` Z.to_nat (2 * tableSize t)) t cmpFunc
              itemHash item k e0) as (t'' & Hadd' & Hpost); [done .. | lia |].
  rewrite Hadd' in Hadd. by simplify_eq.
Qed.

Lemma lookup_match_true cmpFunc itemHash item e :
  lookup_match cmpFunc itemHash item e = true ↔
  is_tombstone e = false ∧ key_match cmpFunc e (mkEntry itemHash item).
Proof.
  unfold lookup_match, is_tombstone, key_match. simpl.
  rewrite !andb_true_iff, negb_true_iff, !Z.eqb_eq. tauto.
Qed.

Lemma lookup_stop_true cmpFunc itemHash item e :
  lookup_stop cmpFunc itemHash item e = true → is_empty e = false →
  is_live e = true ∧ key_match cmpFunc e (mkEntry itemHash item).
Proof.
  unfold lookup_stop. intros Hs Hne. rewrite Hne in Hs. simpl in Hs.
  apply lookup_match_true in Hs as [Ht Hm]. split; [| done].
  unfold is_live, is_empty, is_tombstone in *. by rewrite Hne, Ht.
Qed.

Lemma lookup_stop_live cmpFunc itemHash item e :
  is_live e = true → key_match cmpFunc e (mkEntry itemHash item) →
  lookup_stop cmpFunc itemHash item e = true.
Proof.
  intros Hlive Hm. unfold lookup_stop. apply orb_true_iff. right.
  apply lookup_match_true. split; [by apply live_not_tombstone | done].
Qed.

(** Every way a lookup on a table that satisfies the invariant returns. *)
Lemma lookup_counting_cases fuel t itemHash item cmpFunc doAdd r t' c :
  Inv t → is_u4 itemHash → valid_item item →
  lookup_counting fuel t itemHash item cmpFunc doAdd = Done (r, t', c) →
  ∃ e,
    0 ≤ c < tableSize t ∧
    first_stop (lookup_stop cmpFunc itemHash item) (pEntries t) (tableSize t)
      (home (tableSize t) itemHash) c ∧
    pEntries t !! Z.to_nat (slot (tableSize t) (home (tableSize t) itemHash) c)
      = Some e ∧
    ((is_live e = true ∧ key_match cmpFunc e (mkEntry itemHash item) ∧
      r = data e ∧ t' = t) ∨
     (is_empty e = true ∧ doAdd = false ∧ r = NULL ∧ t' = t) ∨
     (is_empty e = true ∧ doAdd = true ∧ r = item ∧
      added_to t itemHash item t')).
Proof.
  intros HInv Hh Hitem Hl. pose proof HInv as [Hcon Hload].
  destruct (lookup_probe t cmpFunc itemHash item Hcon (Inv_room t HInv))
    as (k & e & Hk & Hfs & He & Hs).
  apply (lookup_counting_mono _ (fuel `max` S (Z.to_nat k))) in Hl; [| lia].
  rewrite (lookup_counting_eval _ _ _ _ _ _ k e) in Hl;
    [| apply Hcon | done | done | lia].
  destruct (is_empty e) eqn:Hempty.
  - destruct doAdd.
    + apply bind_Done in Hl as ([r0 t0] & Hadd & Hl). simplify_eq.
      apply (lookup_add_inv _ _ cmpFunc _ _ _ e) in Hadd as [-> Hpost];
        [| done .. | lia | done | done].
      exists e. split; [done |]. split; [done |]. split; [done |].
      right. right. done.
    + simplify_eq. exists e. split; [done |]. split; [done |].
      split; [done |]. right. left. done.
  - simplify_eq. exists e. split; [done |]. split; [done |]. split; [done |].
    left. destruct (lookup_stop_true _ _ _ _ Hs Hempty). done.
Qed.

(** A lookup on a table that satisfies the invariant returns, given fuel
    for the probe (and for the resize when it adds) and a table small
    enough for the [int] arithmetic of the load check. *)
Lemma lookup_counting_total fuel t itemHash item cmpFunc (doAdd : bool) :
  Inv t → is_u4 itemHash → valid_item item →
  (if doAdd
   then tableSize t * LOAD_NUMER ≤ INT_MAX ∧
        (Z.to_nat (2 * tableSize t) ≤ fuel)%nat
   else (Z.to_nat (tableSize t) ≤ fuel)%nat) →
  ∃ x, lookup_counting fuel t itemHash item cmpFunc doAdd = Done x.
Proof.
  intros HInv Hh Hitem Hfuel. pose proof HInv as [Hcon Hload].
  pose proof (wf_size t (con_wf t Hcon)) as HT.
  destruct (lookup_probe t cmpFunc itemHash item Hcon (Inv_room t HInv))
    as (k & e & Hk & Hfs & He & Hs).
  rewrite (lookup_counting_eval _ _ _ _ _ _ k e);
    [| apply Hcon | done | done | destruct doAdd; lia].
  destruct (is_empty e) eqn:Hempty; [| eauto].
  destruct doAdd; [| eauto]. destruct Hfuel as [Hmax Hfuel].
  destruct (lookup_add_total fuel t cmpFunc itemHash item k e)
    as (t' & -> & _); [done .. | lia | done | done | done | done |].
  simpl. eauto.
Qed.

Lemma dvmHashTableLookup_counting fuel t itemHash item cmpFunc doAdd r t' :
  dvmHashTableLookup fuel t itemHash item cmpFunc doAdd = Done (r, t') ↔
  ∃ c, lookup_counting fuel t itemHash item cmpFunc doAdd = Done (r, t', c).
Proof.
  unfold dvmHashTableLookup. rewrite bind_Done. split.
  - intros ([[r0 t0] c] & Hl & Heq). simplify_eq. eauto.
  - intros (c & Hl). eexists. split; [done | done].
Qed.

(** A lookup for the key of a stored entry finds a stored entry that
    matches it. *)
Lemma lookup_finds_match fuel t cmpFunc e doAdd :
  Inv t →
  live_in (pEntries t) e →
  key_match cmpFunc e e →
  (Z.to_nat (tableSize t) ≤ fuel)%nat →
  ∃ c e', 0 ≤ c < tableSize t ∧
    live_in (pEntries t) e' ∧ key_match cmpFunc e' e ∧
    lookup_counting fuel t (hashValue e) (data e) cmpFunc doAdd
      = Done (data e', t, c).
Proof.
  intros HInv Hin Hrefl Hfuel. pose proof HInv as [Hcon Hload].
  pose proof (wf_size t (con_wf t Hcon)) as HT.
  set (h := hashValue e). set (item := data e).
  destruct (lookup_probe t cmpFunc h item Hcon (Inv_room t HInv))
    as (k & ek & Hk & Hfs & Hek & Hs).
  exists k, ek. split; [done |].
  rewrite (lookup_counting_eval _ _ _ _ _ _ k ek);
    [| apply Hcon | done | done | lia].
  pose proof Hin as (p & Hp & Hlive).
  assert (is_empty ek = false) as Hne.
  { destruct (is_empty ek) eqn:Hempty; [| done]. exfalso.
    pose proof (lookup_lt_Some _ _ _ Hp) as Hplt.
    pose proof (wf_length t (con_wf t Hcon)) as Hlen.
    pose proof (offset_range (tableSize t) (proj1 HT)
                  (home (tableSize t) h) (Z.of_nat p)) as Hd.
    pose proof Hfs as (_ & Hbefore & _).
    destruct (Z.lt_trichotomy k ((Z.of_nat p - home (tableSize t) h)
                                 `mod` tableSize t)) as [Hlt | [Heq | Hgt]].
    - destruct (con_path t Hcon p e Hp Hlive k) as (e' & He' & Hne');
        [fold h; lia |]. fold h in He'. congruence.
    - rewrite Heq, slot_offset, Nat2Z.id in Hek by lia.
      simplify_eq. by rewrite (live_not_empty _ Hlive) in Hempty.
    - destruct (Hbefore _ (conj (proj1 Hd) Hgt)) as (e' & He' & Hs').
      rewrite slot_offset, Nat2Z.id in He' by lia. simplify_eq.
      rewrite lookup_stop_live in Hs'; [done | done |].
      unfold h, item. by rewrite entry_eta. }
  rewrite Hne.
  destruct (lookup_stop_true _ _ _ _ Hs Hne) as [Hlivek Hmatch].
  unfold h, item in Hmatch. rewrite entry_eta in Hmatch.
  split; [| done].
  exists (Z.to_nat (slot (tableSize t) (home (tableSize t) h) k)). done.
Qed.

(** A stored entry whose key nothing else in the table matches is found by
    a lookup for it. *)
Lemma lookup_finds fuel t cmpFunc e doAdd :
  Inv t →
  distinct_keys cmpFunc (live_in (pEntries t)) →
  live_in (pEntries t) e →
  (Z.to_nat (tableSize t) ≤ fuel)%nat →
  ∃ c, 0 ≤ c < tableSize t ∧
    lookup_counting fuel t (hashValue e) (data e) cmpFunc doAdd
      = Done (data e, t, c).
Proof.
  intros HInv [Hrefl Hdistinct] Hin Hfuel.
  destruct (lookup_finds_match fuel t cmpFunc e doAdd)
    as (c & e' & Hc & Hin' & Hmatch & Hl); [done | done | auto | done |].
  exists c. split; [done |].
  by pose proof (Hdistinct e' e Hin' Hin Hmatch) as ->.
Qed.

(** A key that no stored entry matches is not found, and the probe for it
    takes fewer steps than the table has slots. *)
Lemma lookup_misses fuel t cmpFunc itemHash item :
  Inv t →
  (∀ e, live_in (pEntries t) e →
        ¬ key_match cmpFunc e (mkEntry itemHash item)) →
  (Z.to_nat (tableSize t) ≤ fuel)%nat →
  ∃ c, 0 ≤ c < tableSize t ∧
    lookup_counting fuel t itemHash item cmpFunc false = Done (NULL, t, c).
Proof.
  intros HInv Hnone Hfuel. pose proof HInv as [Hcon Hload].
  destruct (lookup_probe t cmpFunc itemHash item Hcon (Inv_room t HInv))
    as (k & e & Hk & Hfs & He & Hs).
  exists k. split; [done |].
  rewrite (lookup_counting_eval _ _ _ _ _ _ k e);
    [| apply Hcon | done | done | lia].
  destruct (is_empty e) eqn:Hempty; [done |].
  destruct (lookup_stop_true _ _ _ _ Hs Hempty) as [Hlive Hmatch].
  destruct (Hnone e); [| done]. by eexists.
Qed.

(** [countProbes] runs the loop of lookup and returns its counter, or -1
    when the key is absent: the counter of [lookup_counting] is the number
    of probes [countProbes] reports. *)
Lemma countProbes_counting fuel t itemHash item cmpFunc r t' c :
  lookup_counting fuel t itemHash item cmpFunc false = Done (r, t', c) →
  countProbes fuel t itemHash item cmpFunc
    = Done (if r =? NULL then -1 else c).
Proof.
  unfold lookup_counting, countProbes.
  intros ([p c'] & -> & H)%bind_Done. simpl in *.
  apply bind_Done in H as (e & -> & H). simpl in *.
  destruct (Z.eqb_spec (data e) NULL) as [Hnull | Hnull]; simplify_eq; [done |].
  by destruct (Z.eqb_spec (data e) NULL).
Qed.

(** ** Turning an Occupied slot into a Tombstone *)

Lemma set_data_tombstone t (q : nat) e n d :
  pEntries t !! q = Some e →
  set_counts (set_data t (Z.of_nat q) HASH_TOMBSTONE) n d
    = mkTable (tableSize t) n d
        (<[q := mkEntry (hashValue e) HASH_TOMBSTONE]> (pEntries t))
        (freeFunc t) (freed t).
Proof.
  intros Hq. unfold set_counts, set_data. simpl. rewrite Nat2Z.id.
  by rewrite (alter_insert _ _ _ e).
Qed.

Lemma tombstoned_Inv t (q : nat) e :
  Inv t → pEntries t !! q = Some e → is_live e = true →
  Inv (tombstoned t q e) ∧
  (∀ (p : nat) x, pEntries (tombstoned t q e) !! p = Some x →
     is_live x = true → p ≠ q ∧ pEntries t !! p = Some x) ∧
  (∀ (p : nat) x, pEntries t !! p = Some x → p ≠ q →
     pEntries (tombstoned t q e) !! p = Some x).
Proof.
  intros [[Hwf Hlive Hdead Hpath] Hload] Hq He.
  pose proof (lookup_lt_Some _ _ _ Hq) as Hlt.
  destruct Hwf as [Hpow Hlen Hu4].
  split; [split; [split; [split |..] |] |]; simpl.
  - done.
  - by rewrite length_insert.
  - intros p x Hp.
    apply list_lookup_insert_Some in Hp as [(_ & <- & _) | (_ & Hp)];
      [by apply (Hu4 q e) | by apply (Hu4 p)].
  - rewrite (count_if_insert _ _ _ _ _ Hq), He. simpl. lia.
  - rewrite (count_if_insert _ _ _ _ _ Hq), (live_not_tombstone _ He).
    simpl. lia.
  - apply path_ok_update; [done | done | done | done].
  - unfold load_ok in *. simpl. lia.
  - split.
    + intros p x Hp Hx.
      apply list_lookup_insert_Some in Hp as [(_ & <- & _) | (? & Hp)]; done.
    + intros p x Hp Hne. by rewrite list_lookup_insert_ne.
Qed.

(** ** dvmHashTableRemove *)

Lemma remove_stop_false item e :
  remove_stop item e = false → is_empty e = false ∧ data e ≠ item.
Proof.
  unfold remove_stop. intros [? Hne]%orb_false_iff. split; [done |].
  by apply Z.eqb_neq.
Qed.

Lemma remove_probe t itemHash item :
  consistent t → numEntries t + numDeadEntries t < tableSize t →
  ∃ k e,
    0 ≤ k < tableSize t ∧
    first_stop (remove_stop item) (pEntries t) (tableSize t)
      (home (tableSize t) itemHash) k ∧
    pEntries t !! Z.to_nat (slot (tableSize t) (home (tableSize t) itemHash) k)
      = Some e ∧
    remove_stop item e = true.
Proof.
  intros Hcon Hroom.
  destruct (consistent_has_empty t Hcon Hroom) as (q & e0 & Hq & He0).
  pose proof (con_wf t Hcon) as Hwf.
  pose proof (wf_size t Hwf) as HT.
  pose proof (wf_home_range t itemHash Hwf) as Hhome.
  destruct (first_stop_exists (remove_stop item) (pEntries t)
              (tableSize t) (home (tableSize t) itemHash) q e0)
    as (k & Hk & Hfs); [lia | apply Hwf | done | done | |].
  { unfold remove_stop. by rewrite He0. }
  pose proof (offset_range (tableSize t) (proj1 HT)
                (home (tableSize t) itemHash) (Z.of_nat q)).
  pose proof Hfs as (_ & _ & e & He & Hs).
  exists k, e. split; [lia | done].
Qed.

Lemma remove_eval fuel t itemHash item k e :
  Inv t →
  first_stop (remove_stop item) (pEntries t) (tableSize t)
    (home (tableSize t) itemHash) k →
  pEntries t !! Z.to_nat (slot (tableSize t) (home (tableSize t) itemHash) k)
    = Some e →
  (Z.to_nat k < fuel)%nat →
  dvmHashTableRemove fuel t itemHash item =
    if is_empty e then Done (false, t)
    else Done (true,
               tombstoned t
                 (Z.to_nat (slot (tableSize t) (home (tableSize t) itemHash) k))
                 e).
Proof.
  intros [Hcon Hload] Hfs He Hfuel.
  pose proof (con_wf t Hcon) as Hwf. pose proof (wf_size t Hwf) as HT.
  pose proof Hfs as (Hk & _ & e' & He' & Hs). simplify_eq.
  unfold dvmHashTableRemove. fold (home (tableSize t) itemHash).
  rewrite (remove_loop_spec _ _ (Z.to_nat k));
    [| lia | by apply wf_home_range | by rewrite Z2Nat.id | done].
  rewrite Z2Nat.id by done.
  pose proof (slot_range (tableSize t) (proj1 HT)
                (home (tableSize t) itemHash) k) as Hslot.
  simpl. rewrite (proj2 (load_Done _ _ _)) by (split; [lia | done]).
  simpl bind. unfold remove_stop, is_empty in *.
  destruct (data e =? NULL); [done |]. simpl in Hs. rewrite Hs.
  pose proof (count_if_nonneg is_live (pEntries t)).
  pose proof (count_if_nonneg is_tombstone (pEntries t)).
  pose proof (con_live t Hcon). pose proof (con_dead t Hcon).
  pose proof (wf_length t Hwf).
  rewrite !int_in_range by (unfold INT_MIN, INT_MAX; lia). simpl bind.
  rewrite <- (Z2Nat.id (slot _ _ _)) at 1 by lia.
  by rewrite (set_data_tombstone _ _ e).
Qed.

(** ** dvmHashTableCreate *)

Lemma create_spec initialSize ff :
  0 < initialSize ≤ 2 ^ 30 →
  ∃ t, dvmHashTableCreate initialSize ff = Some t ∧ Inv t ∧
       tableSize t = dexRoundUpPower2 initialSize ∧
       initialSize ≤ tableSize t ∧
       numEntries t = 0 ∧ numDeadEntries t = 0 ∧ freed t = [] ∧
       ∀ e, ¬ live_in (pEntries t) e.
Proof.
  intros [Hpos Hmax]. unfold dvmHashTableCreate, dexRoundUpPower2.
  set (m := Z.log2_up initialSize).
  assert (0 ≤ m ≤ 30) as Hm.
  { split; [apply Z.log2_up_nonneg | by apply Z.log2_up_le_pow2]. }
  destruct (fresh_array_calloc (2 ^ m) m)
    as (es & -> & (Hlen & Hall & Hpath) & Hc0 & Hl0); [lia | done |].
  eexists. split; [done |].
  assert (count_if is_tombstone es = 0) as Hnotomb.
  { apply count_if_zero. intros p e Hp. by apply (Hall p). }
  split; [split; [split; [split |..] |] |]; simpl; try done.
  - by exists m.
  - intros p e Hp. by apply (Hall p).
  - unfold load_ok, LOAD_NUMER, LOAD_DENOM. simpl.
    assert (0 < 2 ^ m) by (apply Z.pow_pos_nonneg; lia). lia.
  - split; [done |]. split; [| done].
    by apply Z.log2_log2_up_spec.
Qed.

(** ** dvmHashTableClear *)

Lemma clear_loop_spec (i : nat) :
  ∀ t (p : nat), (p + i ≤ length (pEntries t))%nat →
  ∃ t', clear_loop i t (Z.of_nat p) = Done t' ∧
        tableSize t' = tableSize t ∧
        length (pEntries t') = length (pEntries t) ∧
        ∀ (j : nat) e', pEntries t' !! j = Some e' →
          ∃ e, pEntries t !! j = Some e ∧ hashValue e' = hashValue e ∧
               ((p ≤ j < p + i)%nat → data e' = NULL) ∧
               (¬ (p ≤ j < p + i)%nat → e' = e).
Proof.
  induction i as [| i IH]; intros t p Hlen.
  - exists t. simpl. split; [done |]. split; [done |]. split; [done |].
    intros j e' Hj. exists e'. split; [done |]. split; [done |].
    split; [lia | done].
  - destruct (lookup_lt_is_Some_2 (pEntries t) p) as [e He]; [lia |].
    simpl. rewrite (load_lookup _ _ _ He). simpl bind.
    set (t1 := if data e =? HASH_TOMBSTONE then _ else _).
    assert (tableSize t1 = tableSize t ∧
            pEntries t1 = <[p := mkEntry (hashValue e) NULL]> (pEntries t))
      as [Hsize1 Hes1].
    { unfold t1, set_data. rewrite Nat2Z.id.
      destruct (Z.eqb_spec (data e) HASH_TOMBSTONE).
      - simpl. by rewrite (alter_insert _ _ _ e).
      - destruct (Z.eqb_spec (data e) NULL) as [Hnull | Hnull]; simpl.
        + split; [done |]. rewrite <- Hnull, entry_eta.
          by rewrite list_insert_id.
        + destruct (freeFunc t); simpl; by rewrite (alter_insert _ _ _ e). }
    clearbody t1.
    replace (Z.of_nat p + 1) with (Z.of_nat (S p)) by lia.
    destruct (IH t1 (S p)) as (t' & Hloop & Hsize & Hlen' & Hall).
    { rewrite Hes1, length_insert. lia. }
    exists t'. split; [done |]. split; [congruence |].
    split; [by rewrite Hlen', Hes1, length_insert |].
    intros j e' Hj. destruct (Hall j e' Hj) as (e1 & He1 & Hh1 & Hd1 & Hk1).
    rewrite Hes1 in He1.
    apply list_lookup_insert_Some in He1 as [(-> & <- & _) | (Hne & He1)].
    + exists e. split; [done |]. split; [done |].
      split; [| lia]. intros _. rewrite Hk1 by lia. done.
    + exists e1. split; [done |]. split; [done |]. split.
      * intros ?. apply Hd1. lia.
      * intros ?. apply Hk1. lia.
Qed.

(** Clearing empties every slot. *)
Lemma clear_spec t :
  wf t →
  ∃ t', dvmHashTableClear t = Done t' ∧ Inv t' ∧
        tableSize t' = tableSize t ∧
        numEntries t' = 0 ∧ numDeadEntries t' = 0 ∧
        ∀ (p : nat) e, pEntries t' !! p = Some e → is_empty e = true.
Proof.
  intros Hwf. pose proof Hwf as [Hpow Hlen Hu4].
  destruct (clear_loop_spec (length (pEntries t)) t 0)
    as (t' & Hloop & Hsize & Hlen' & Hall); [lia |].
  unfold dvmHashTableClear.
  assert (Z.to_nat (tableSize t) = length (pEntries t)) as -> by lia.
  change (Z.of_nat 0) with 0 in Hloop. rewrite Hloop. simpl.
  assert (∀ (p : nat) e, pEntries t' !! p = Some e → is_empty e = true)
    as Hempty.
  { intros p e Hp. destruct (Hall p e Hp) as (e0 & He0 & _ & Hnull & _).
    unfold is_empty. apply Z.eqb_eq, Hnull.
    apply lookup_lt_Some in He0. lia. }
  exists (set_counts t' 0 0). split; [done |].
  split; [split; [split; [split |..] |] |]; simpl; try done.
  - by rewrite Hsize.
  - lia.
  - intros p e Hp. destruct (Hall p e Hp) as (e0 & He0 & -> & _).
    by apply (Hu4 p).
  - symmetry. apply count_if_zero. intros p e Hp.
    by apply empty_not_live, (Hempty p).
  - symmetry. apply count_if_zero. intros p e Hp.
    pose proof (Hempty p e Hp) as He. unfold is_empty, is_tombstone in *.
    apply Z.eqb_eq in He. by rewrite He.
  - intros p e Hp Hlive. by rewrite (empty_not_live _ (Hempty p e Hp)) in Hlive.
  - unfold load_ok, LOAD_NUMER, LOAD_DENOM. simpl.
    pose proof (wf_size t Hwf). lia.
Qed.

(** ** dvmHashForeachRemove *)

(** Whatever the visitor answers, the traversal returns and keeps the
    invariant; it frees nothing and adds nothing. *)
Lemma foreachRemove_loop_Inv func (i : nat) :
  ∀ t, Inv t → (i ≤ length (pEntries t))%nat →
  ∃ val t', foreachRemove_loop i t func = Done (val, t') ∧ Inv t' ∧
            tableSize t' = tableSize t ∧ freed t' = freed t ∧
            ∀ e, live_in (pEntries t') e → live_in (pEntries t) e.
Proof.
  induction i as [| i IH]; intros t HInv Hlen.
  - exists 0, t. simpl. done.
  - destruct (lookup_lt_is_Some_2 (pEntries t) i) as [e He]; [lia |].
    simpl. rewrite (load_lookup _ _ _ He). simpl bind.
    change (negb (data e =? NULL) && negb (data e =? HASH_TOMBSTONE))
      with (is_live e).
    destruct (is_live e) eqn:Hlive; [| apply IH; [done | lia]].
    destruct (Z.eqb_spec (func (data e)) 1) as [Hrm | Hkeep].
    + pose proof HInv as [Hcon Hload].
      pose proof (count_if_nonneg is_live (pEntries t)).
      pose proof (count_if_nonneg is_tombstone (pEntries t)).
      pose proof (con_live t Hcon). pose proof (con_dead t Hcon).
      pose proof (wf_length t (con_wf t Hcon)).
      pose proof (wf_size t (con_wf t Hcon)).
      rewrite !int_in_range by (unfold INT_MIN, INT_MAX; lia). simpl bind.
      rewrite (set_data_tombstone _ _ e) by done.
      fold (tombstoned t i e).
      destruct (tombstoned_Inv t i e HInv He Hlive) as (HInv1 & Hsub & _).
      destruct (IH (tombstoned t i e)) as (val & t' & Hloop & ? & ? & ? & Hl);
        [done | by simpl; rewrite length_insert; lia |].
      exists val, t'. split; [done |]. split; [done |]. split; [done |].
      split; [done |]. intros x Hx.
      destruct (Hl x Hx) as (p & Hp & Hxl).
      destruct (Hsub p x Hp Hxl) as [_ Hp']. by exists p.
    + destruct (Z.eqb_spec (func (data e)) 0) as [H0 | H0]; simpl.
      * apply IH; [done | lia].
      * exists (func (data e)), t. done.
Qed.

(** ** Every way a removal returns *)

Lemma remove_stop_true item e :
  remove_stop item e = true → is_empty e = false → data e = item.
Proof.
  unfold remove_stop. intros Hs Hne. rewrite Hne in Hs. by apply Z.eqb_eq.
Qed.

Lemma remove_total fuel t itemHash item :
  Inv t → (Z.to_nat (tableSize t) ≤ fuel)%nat →
  ∃ k e,
    0 ≤ k < tableSize t ∧
    first_stop (remove_stop item) (pEntries t) (tableSize t)
      (home (tableSize t) itemHash) k ∧
    pEntries t !! Z.to_nat (slot (tableSize t) (home (tableSize t) itemHash) k)
      = Some e ∧
    ((is_empty e = true ∧
      dvmHashTableRemove fuel t itemHash item = Done (false, t)) ∨
     (is_empty e = false ∧ data e = item ∧
      dvmHashTableRemove fuel t itemHash item
        = Done (true,
                tombstoned t
                  (Z.to_nat
                     (slot (tableSize t) (home (tableSize t) itemHash) k))
                  e))).
Proof.
  intros HInv Hfuel. pose proof HInv as [Hcon _].
  destruct (remove_probe t itemHash item Hcon (Inv_room t HInv))
    as (k & e & Hk & Hfs & He & Hs).
  exists k, e. split; [done |]. split; [done |]. split; [done |].
  rewrite (remove_eval fuel t itemHash item k e); [| done | done | done | lia].
  destruct (is_empty e) eqn:Hempty; [by left | right].
  split; [done |]. split; [by apply remove_stop_true | done].
Qed.

Lemma remove_cases fuel t itemHash item removed t' :
  Inv t →
  dvmHashTableRemove fuel t itemHash item = Done (removed, t') →
  (removed = false ∧ t' = t) ∨
  (∃ (q : nat) e, pEntries t !! q = Some e ∧ is_empty e = false ∧
     data e = item ∧ removed = true ∧ t' = tombstoned t q e).
Proof.
  intros HInv Hr.
  apply (remove_loop_mono _ (fuel `max` Z.to_nat (tableSize t))) in Hr;
    [| lia].
  destruct (remove_total (fuel `max` Z.to_nat (tableSize t)) t itemHash item)
    as (k & e & Hk & Hfs & He & [[Hempty Hr'] | (Hne & Hitem & Hr')]);
    [done | lia | |]; unfold dvmHashTableRemove in Hr'; rewrite Hr' in Hr;
    simplify_eq.
  - by left.
  - right. eauto 10.
Qed.

(** ** The reachable tables satisfy the invariant *)

Lemma valid_item_live e : is_empty e = false → valid_item (data e) → is_live e = true.
Proof.
  unfold is_empty, is_live, valid_item. intros -> [_ Ht]. simpl.
  by destruct (Z.eqb_spec (data e) HASH_TOMBSTONE).
Qed.

Lemma added_true t itemHash item t' :
  added_to t itemHash item t' → added t t' = true.
Proof.
  intros (_ & Hn & _). unfold added. rewrite Hn.
  by destruct (Z.eqb_spec (numEntries t + 1) (numEntries t)); [lia |].
Qed.

Lemma added_same t : added t t = false.
Proof. unfold added. by rewrite Z.eqb_refl. Qed.

Lemma reachable_Inv ins t :
  reachable ins t →
  Inv t ∧ ∀ e, live_in (pEntries t) e → e ∈ ins.
Proof.
  induction 1 as
    [ initialSize ff t Hsize Hcreate
    | ins t fuel itemHash item cmpFunc doAdd result t' _ [IH IHl] Hh Hitem Hl
    | ins t fuel itemHash item removed t' _ [IH IHl] Hh Hitem Hr
    | ins t t' _ [IH IHl] Hc
    | ins t func val t' _ [IH IHl] Hf ].
  - destruct (create_spec initialSize ff Hsize)
      as (t0 & Hcreate' & HInv & _ & _ & _ & _ & _ & Hnone).
    rewrite Hcreate' in Hcreate. simplify_eq.
    split; [done |]. intros e He. by destruct (Hnone e).
  - apply dvmHashTableLookup_counting in Hl as [c Hl].
    destruct (lookup_counting_cases _ _ _ _ _ _ _ _ _ IH Hh Hitem Hl)
      as (e & _ & _ & _ & [(_ & _ & _ & ->) | [(_ & _ & _ & ->) | (_ & _ & _ & Hadd)]]).
    + by rewrite added_same.
    + by rewrite added_same.
    + rewrite (added_true _ _ _ _ Hadd).
      destruct Hadd as (HInv' & _ & _ & _ & Hlive & _). split; [done |].
      intros x [Hx | ->]%Hlive; [| by left]. right. by apply IHl.
  - destruct (remove_cases _ _ _ _ _ _ IH Hr)
      as [[_ ->] | (q & e & Hq & Hne & Hdata & _ & ->)]; [done |].
    assert (is_live e = true) as Hlive.
    { apply valid_item_live; [done | by rewrite Hdata]. }
    destruct (tombstoned_Inv t q e IH Hq Hlive) as (HInv' & Hsub & _).
    split; [done |]. intros x (p & Hp & Hx). apply IHl.
    destruct (Hsub p x Hp Hx) as [_ Hp']. by exists p.
  - destruct (clear_spec t) as (t0 & Hc' & HInv' & _ & _ & _ & Hempty);
      [apply IH |].
    rewrite Hc' in Hc. simplify_eq. split; [done |].
    intros x (p & Hp & Hx). by rewrite (empty_not_live _ (Hempty p x Hp)) in Hx.
  - pose proof (wf_length t (con_wf t (proj1 IH))) as Hlen.
    destruct (foreachRemove_loop_Inv func (Z.to_nat (tableSize t)) t)
      as (val' & t0 & Hf' & HInv' & _ & _ & Hsub); [done | lia |].
    unfold dvmHashForeachRemove in Hf. rewrite Hf' in Hf. simplify_eq.
    split; [done |]. intros x Hx. by apply IHl, Hsub.
Qed.

(** ** countTombStones *)

Lemma countTombStones_loop_spec t (i : nat) :
  ∀ count, (i ≤ length (pEntries t))%nat →
  countTombStones_loop i t count
    = Done (count + count_if is_tombstone (take i (pEntries t))).
Proof.
  induction i as [| i IH]; intros count Hlen; simpl.
  - by rewrite Z.add_0_r.
  - destruct (lookup_lt_is_Some_2 (pEntries t) i) as [e He]; [lia |].
    rewrite (load_lookup _ _ _ He). simpl bind.
    rewrite IH by lia. rewrite (take_S_r _ _ _ He), count_if_app. simpl.
    unfold is_tombstone. f_equal. destruct (data e =? HASH_TOMBSTONE); lia.
Qed.

Lemma countTombStones_spec t :
  Z.of_nat (length (pEntries t)) = tableSize t →
  countTombStones t = Done (count_if is_tombstone (pEntries t)).
Proof.
  intros Hlen. unfold countTombStones.
  rewrite countTombStones_loop_spec by lia.
  rewrite take_ge by lia. done.
Qed.

(** ** A traversal that removes one entry *)

Lemma foreachRemove_keep func (i : nat) :
  ∀ t, (i ≤ length (pEntries t))%nat →
  (∀ (p : nat) e, (p < i)%nat → pEntries t !! p = Some e →
     is_live e = true → func (data e) = 0) →
  foreachRemove_loop i t func = Done (0, t).
Proof.
  induction i as [| i IH]; intros t Hlen Hkeep; [done |].
  destruct (lookup_lt_is_Some_2 (pEntries t) i) as [e He]; [lia |].
  simpl. rewrite (load_lookup _ _ _ He). simpl bind.
  change (negb (data e =? NULL) && negb (data e =? HASH_TOMBSTONE))
    with (is_live e).
  destruct (is_live e) eqn:Hlive.
  - rewrite (Hkeep i e) by (done || lia). simpl.
    apply IH; [lia |]. intros p x Hp. apply Hkeep. lia.
  - apply IH; [lia |]. intros p x Hp. apply Hkeep. lia.
Qed.

Lemma foreachRemove_one func t (y : nat) ey :
  Inv t →
  pEntries t !! y = Some ey → is_live ey = true → func (data ey) = 1 →
  (∀ (p : nat) e, pEntries t !! p = Some e → is_live e = true → p ≠ y →
     func (data e) = 0) →
  dvmHashForeachRemove t func = Done (0, tombstoned t y ey).
Proof.
  intros HInv Hy Hlive Hrm Hkeep. pose proof HInv as [Hcon Hload].
  pose proof (wf_length t (con_wf t Hcon)) as Hlen.
  pose proof (lookup_lt_Some _ _ _ Hy) as Hylt.
  unfold dvmHashForeachRemove.
  assert (∀ i : nat, (y < i ≤ length (pEntries t))%nat →
            foreachRemove_loop i t func = Done (0, tombstoned t y ey)) as Hloop.
  { induction i as [| i IH]; intros Hi; [lia |].
    destruct (lookup_lt_is_Some_2 (pEntries t) i) as [e He]; [lia |].
    simpl. rewrite (load_lookup _ _ _ He). simpl bind.
    change (negb (data e =? NULL) && negb (data e =? HASH_TOMBSTONE))
      with (is_live e).
    destruct (decide (i = y)) as [-> | Hne].
    - simplify_eq. rewrite Hlive, Hrm. simpl.
      pose proof (count_if_nonneg is_live (pEntries t)).
      pose proof (count_if_nonneg is_tombstone (pEntries t)).
      pose proof (con_live t Hcon). pose proof (con_dead t Hcon).
      pose proof (wf_size t (con_wf t Hcon)).
      rewrite !int_in_range by (unfold INT_MIN, INT_MAX; lia). simpl bind.
      rewrite (set_data_tombstone _ _ ey) by done. fold (tombstoned t y ey).
      apply foreachRemove_keep.
      + simpl. rewrite length_insert. lia.
      + intros p x Hp Hx Hxl. simpl in Hx.
        rewrite list_lookup_insert_ne in Hx by lia.
        apply (Hkeep p); [done | done | lia].
    - destruct (is_live e) eqn:Hle; [| apply IH; lia].
      rewrite (Hkeep i e) by done. simpl. apply IH. lia. }
  apply Hloop. lia.
Qed.

(** ** Sequences of insertions *)

Lemma insert_all_spec fuel cmpFunc keys :
  ∀ t t',
    Inv t →
    Forall valid_key keys →
    distinct_keys cmpFunc (λ e, live_in (pEntries t) e ∨ e ∈ keys) →
    insert_all fuel cmpFunc t keys = Done t' →
    Inv t' ∧ tableSize t ≤ tableSize t' ∧
    ∀ e, live_in (pEntries t') e ↔ live_in (pEntries t) e ∨ e ∈ keys.
Proof.
  induction keys as [| k keys IH]; intros t t' HInv Hvalid Hdist Hall.
  - simpl in Hall. simplify_eq. split; [done |]. split; [lia |].
    intros e. rewrite elem_of_nil. tauto.
  - simpl in Hall. apply bind_Done in Hall as ([r t1] & Hl & Hall).
    apply Forall_cons in Hvalid as [[Hh Hitem] Hvalid].
    apply dvmHashTableLookup_counting in Hl as [c Hl].
    destruct Hdist as [Hrefl Hdist].
    destruct (lookup_counting_cases _ _ _ _ _ _ _ _ _ HInv Hh Hitem Hl)
      as (e & _ & _ & He &
          [(Hlive & Hmatch & _ & ->) | [(_ & ? & _) | (_ & _ & _ & Hadd)]]);
      [| done |].
    + rewrite entry_eta in Hmatch.
      assert (e = k) as ->.
      { apply Hdist; [left; by eexists | right; by left | done]. }
      destruct (IH t t') as (HInv' & Hsize & Hl'); [done | done | | done |].
      { split; [intros a Ha | intros a b Ha Hb].
        - apply Hrefl. rewrite elem_of_cons. tauto.
        - apply Hdist; rewrite elem_of_cons; tauto. }
      split; [done |]. split; [done |]. intros x. rewrite Hl', elem_of_cons.
      split; [tauto |]. intros [? | [-> | ?]]; [tauto | | tauto].
      left. by eexists.
    + destruct Hadd as (HInv1 & _ & _ & _ & Hlive1 & Hsize1).
      rewrite entry_eta in Hlive1.
      destruct (IH t1 t') as (HInv' & Hsize & Hl'); [done | done | | done |].
      { split; [intros a Ha | intros a b Ha Hb].
        - apply Hrefl. rewrite Hlive1 in Ha. rewrite elem_of_cons. tauto.
        - apply Hdist; rewrite elem_of_cons;
            rewrite Hlive1 in *; tauto. }
      pose proof (wf_size t (con_wf t (proj1 HInv))).
      split; [done |]. split; [lia |].
      intros x. rewrite Hl', Hlive1, elem_of_cons. tauto.
Qed.

(** * Properties of the table *)

Lemma insert_all_total fuel cmpFunc keys B :
  5 * B ≤ INT_MAX → (Z.to_nat (2 * B) ≤ fuel)%nat →
  ∀ t,
    Inv t → Forall valid_key keys →
    tableSize t ≤ B →
    4 * (numEntries t + numDeadEntries t + Z.of_nat (length keys)) ≤ B →
    ∃ t', insert_all fuel cmpFunc t keys = Done t' ∧ tableSize t' ≤ B.
Proof.
  intros HB Hfuel.
  induction keys as [| k keys IH]; intros t HInv Hvalid Hsize Hroom.
  - exists t. done.
  - apply Forall_cons in Hvalid as [[Hh Hitem] Hvalid].
    pose proof (wf_size t (con_wf t (proj1 HInv))) as HT.
    destruct (lookup_counting_total fuel t (hashValue k) (data k) cmpFunc true)
      as ([[r t1] c] & Hl); [done | done | done | |].
    { unfold LOAD_NUMER. split; lia. }
    simpl. rewrite (proj2 (dvmHashTableLookup_counting _ _ _ _ _ _ _ _))
      by eauto. simpl bind. simpl length in Hroom.
    destruct (lookup_counting_cases _ _ _ _ _ _ _ _ _ HInv Hh Hitem Hl)
      as (e & _ & _ & _ &
          [(_ & _ & _ & ->) | [(_ & ? & _) | (_ & _ & _ & Hadd)]]);
      [apply IH; [done | done | done | lia] | done |].
    destruct Hadd
      as (HInv1 & Hn1 & _ & _ & _ & [[Hs1 Hd1] | (Hs1 & Hd1 & Hfull)]).
    + apply IH; [done | done | lia | rewrite Hn1, Hd1; lia].
    + pose proof (count_if_nonneg is_tombstone (pEntries t)).
      pose proof (con_dead t (proj1 HInv)).
      unfold LOAD_DENOM, LOAD_NUMER in Hfull.
      apply IH; [done | done | lia | rewrite Hn1, Hd1; lia].
Qed.

(** C1.  After a sequence of insertions of distinct keys into a created
    table (each a lookup with [doAdd] set), a lookup without [doAdd] for
    each of the keys, with its hash, returns the value that was inserted,
    and leaves the table as it is.  Keys are distinct when the comparison
    function accepts a key against itself and against no other key of the
    sequence.  The sequence of insertions does run to its end when the
    sizes stay within [int] and the fuel covers the largest table. *)
Theorem insert_then_lookup fuel cmpFunc initialSize ff t0 keys :
  0 < initialSize ≤ 2 ^ 30 →
  dvmHashTableCreate initialSize ff = Some t0 →
  Forall valid_key keys →
  distinct_keys cmpFunc (λ e, e ∈ keys) →
  (∀ t' k fuel',
     insert_all fuel cmpFunc t0 keys = Done t' →
     k ∈ keys →
     (Z.to_nat (tableSize t') ≤ fuel')%nat →
     dvmHashTableLookup fuel' t' (hashValue k) (data k) cmpFunc false
       = Done (data k, t')) ∧
  (∀ B,
     tableSize t0 ≤ B → 4 * Z.of_nat (length keys) ≤ B →
     5 * B ≤ INT_MAX → (Z.to_nat (2 * B) ≤ fuel)%nat →
     ∃ t', insert_all fuel cmpFunc t0 keys = Done t').
Proof.
  intros Hsize Hcreate Hvalid [Hrefl Hdist].
  destruct (create_spec initialSize ff Hsize)
    as (t & Hcreate' & HInv & _ & _ & Hn0 & Hd0 & _ & Hnone).
  rewrite Hcreate' in Hcreate. simplify_eq. split.
  - intros t' k fuel' Hall Hk Hfuel.
    destruct (insert_all_spec fuel cmpFunc keys t0 t') as (HInv' & _ & Hlive);
      [done | done | | done |].
    { split; [intros a [Ha | Ha] | intros a b [Ha | Ha] [Hb | Hb]];
        try (by destruct (Hnone a)); try (by destruct (Hnone b)); auto. }
    destruct (lookup_finds fuel' t' cmpFunc k false) as (c & _ & Hl);
      [done | | | done |].
    + split; [intros a Ha | intros a b Ha Hb].
      * apply Hrefl.
        apply Hlive in Ha as [Ha | Ha]; [by destruct (Hnone a) | done].
      * apply Hdist.
        -- apply Hlive in Ha as [Ha | Ha]; [by destruct (Hnone a) | done].
        -- apply Hlive in Hb as [Hb | Hb]; [by destruct (Hnone b) | done].
    + apply Hlive. by right.
    + apply dvmHashTableLookup_counting. eauto.
  - intros B HB0 HB1 HB2 Hfuel.
    destruct (insert_all_total fuel cmpFunc keys B HB2 Hfuel t0)
      as (t' & Hall & _); [done | done | done | rewrite Hn0, Hd0; lia |].
    by exists t'.
Qed.

Lemma distinct_identity P : distinct_keys cmp_identity P.
Proof.
  split.
  - intros a _. split; [done |]. unfold cmp_identity. by rewrite Z.eqb_refl.
  - intros [ha da] [hb db] _ _ [Hh Hd]. simpl in *. unfold cmp_identity in Hd.
    destruct (Z.eqb_spec da db); [congruence | done].
Qed.

Lemma valid_key_intro h v :
  (0 <=? h) && (h <? U4_MOD) && negb (v =? NULL) && negb (v =? HASH_TOMBSTONE)
    = true →
  valid_key (mkEntry h v).
Proof.
  rewrite !andb_true_iff, !negb_true_iff, Z.leb_le, Z.ltb_lt, !Z.eqb_neq.
  intros [[[? ?] ?] ?]. repeat split; simpl; done.
Qed.

Lemma insert_then_lookup_witness :
  dvmHashTableLookup 8 tableABCD 4 14 cmp_identity false = Done (14, tableABCD).
Proof.
  destruct (insert_then_lookup 16 cmp_identity 4 false table4 keysABCD)
    as [Hfind _].
  - lia.
  - reflexivity.
  - repeat (apply Forall_cons; split; [by apply valid_key_intro |]).
    apply Forall_nil. done.
  - apply distinct_identity.
  - apply (Hfind tableABCD (mkEntry 4 14) 8%nat).
    + reflexivity.
    + unfold keysABCD. rewrite !elem_of_cons. tauto.
    + vm_compute. lia.
Defined.

(** C2.  On every table the public operations produce from a created one,
    a lookup without [doAdd] for a key that was never inserted (no key that
    was added matches it under the comparison function, with the same
    hash) returns absent ([NULL]) and leaves the table as it is; the probe
    loop ends, and the number of probe steps it takes is less than the
    capacity. *)
Theorem lookup_never_inserted ins t fuel itemHash item cmpFunc :
  reachable ins t →
  (∀ e, e ∈ ins → ¬ key_match cmpFunc e (mkEntry itemHash item)) →
  (Z.to_nat (tableSize t) ≤ fuel)%nat →
  ∃ count,
    lookup_counting fuel t itemHash item cmpFunc false = Done (NULL, t, count) ∧
    dvmHashTableLookup fuel t itemHash item cmpFunc false = Done (NULL, t) ∧
    0 ≤ count < tableSize t.
Proof.
  intros [HInv Hins]%reachable_Inv Hnever Hfuel.
  destruct (lookup_misses fuel t cmpFunc itemHash item) as (c & Hc & Hl);
    [done | | done |].
  { intros e He. apply Hnever, Hins, He. }
  exists c. split; [done |]. split; [| done].
  apply dvmHashTableLookup_counting. eauto.
Qed.

Lemma reach_insert ins t fuel itemHash item cmpFunc result t' :
  reachable ins t →
  (0 <=? itemHash) && (itemHash <? U4_MOD) = true →
  (item =? NULL) || (item =? HASH_TOMBSTONE) = false →
  dvmHashTableLookup fuel t itemHash item cmpFunc true = Done (result, t') →
  added t t' = true →
  reachable (mkEntry itemHash item :: ins) t'.
Proof.
  intros Hr [?%Z.leb_le ?%Z.ltb_lt]%andb_true_iff
    [?%Z.eqb_neq ?%Z.eqb_neq]%orb_false_iff Hl Hadd.
  pose proof (reach_lookup ins t fuel itemHash item cmpFunc true result t' Hr)
    as Hreach.
  rewrite Hadd in Hreach. by apply Hreach.
Qed.

Lemma reachable_table_after2 :
  reachable [mkEntry 1 12; mkEntry 0 11] (table_after 2).
Proof.
  refine (reach_insert _ (table_after 1) 16 1 12 cmp_identity 12 _ _
            eq_refl eq_refl eq_refl eq_refl).
  refine (reach_insert _ table4 16 0 11 cmp_identity 11 _ _
            eq_refl eq_refl eq_refl eq_refl).
  apply (reach_create 4 false); [lia | reflexivity].
Qed.

Lemma reachable_tableABCD : reachable (reverse keysABCD) tableABCD.
Proof.
  refine (reach_insert _ (table_after 3) 16 4 14 cmp_identity 14 _ _
            eq_refl eq_refl eq_refl eq_refl).
  refine (reach_insert _ (table_after 2) 16 2 13 cmp_identity 13 _ _
            eq_refl eq_refl eq_refl eq_refl).
  apply reachable_table_after2.
Qed.

Lemma lookup_never_inserted_witness :
  ∃ count,
    lookup_counting 8 tableABCD 8 15 cmp_identity false
      = Done (NULL, tableABCD, count) ∧
    dvmHashTableLookup 8 tableABCD 8 15 cmp_identity false
      = Done (NULL, tableABCD) ∧
    0 ≤ count < tableSize tableABCD.
Proof.
  apply (lookup_never_inserted (reverse keysABCD) tableABCD 8 8 15 cmp_identity).
  - apply reachable_tableABCD.
  - intros e He [_ Hc].
    change (reverse keysABCD)
      with [mkEntry 4 14; mkEntry 2 13; mkEntry 1 12; mkEntry 0 11] in He.
    rewrite !elem_of_cons, elem_of_nil in He.
    destruct He as [-> | [-> | [-> | [-> | []]]]]; discriminate Hc.
  - vm_compute. lia.
Defined.

Lemma pow2_times2 m : 0 ≤ m → 2 ^ m * 2 ≤ INT_MAX → m ≤ 29.
Proof.
  intros Hm Hle. destruct (decide (m ≤ 29)) as [| Hgt]; [done |].
  assert (2 ^ 30 ≤ 2 ^ m) by (apply Z.pow_le_mono_r; lia).
  unfold INT_MAX in Hle. lia.
Qed.

(** C3.  A resize to twice the capacity returns with [numDeadEntries] zero
    and no Tombstone in the new array (the count of [countTombStones] is
    zero); the Occupied entries of the new array are those of the old one,
    and a lookup in the new table for the key of an entry that was
    Occupied, with its stored hash, finds it: it returns a stored value
    that the comparison function accepts for it, which is the value of the
    entry itself when the keys in the table are distinct. *)
Theorem resize_keeps_entries fuel t :
  consistent t →
  tableSize t * 2 ≤ INT_MAX →
  (Z.to_nat (tableSize t * 2) ≤ fuel)%nat →
  ∃ t',
    resizeHash fuel t (tableSize t * 2) = Done (true, t') ∧
    numDeadEntries t' = 0 ∧ countTombStones t' = Done 0 ∧
    tableSize t' = tableSize t * 2 ∧
    numEntries t' = numEntries t ∧
    (∀ e, live_in (pEntries t') e ↔ live_in (pEntries t) e) ∧
    ∀ cmpFunc e,
      live_in (pEntries t) e → key_match cmpFunc e e →
      ∃ e', live_in (pEntries t) e' ∧ key_match cmpFunc e' e ∧
            (distinct_keys cmpFunc (live_in (pEntries t)) → e' = e) ∧
            dvmHashTableLookup fuel t' (hashValue e) (data e) cmpFunc false
              = Done (data e', t').
Proof.
  intros [Hwf Hlive Hdead Hpath] Hmax Hfuel.
  pose proof (wf_size t Hwf) as HT.
  destruct (wf_pow2 t Hwf) as (m & Hm & Hsize).
  assert (m ≤ 29) as Hm29 by (apply pow2_times2; [lia | by rewrite <- Hsize]).
  pose proof (count_if_nonneg is_live (pEntries t)) as Hnn.
  pose proof (wf_length t Hwf) as Hlen.
  destruct (resizeHash_spec fuel t (tableSize t * 2) (m + 1))
    as (es & Hr & (Hlen' & Hall & Hpath') & Hc & Hl);
    [done | lia | rewrite Z.pow_add_r by lia; lia | done | lia |].
  assert (count_if is_tombstone es = 0) as Hnotomb.
  { apply count_if_zero. intros p e Hp. by apply (Hall p). }
  set (t' := mkTable (tableSize t * 2) (numEntries t) 0 es (freeFunc t)
               (freed t)) in *.
  assert (Inv t') as HInv'.
  { split; [split; [split |..] |]; simpl; try done.
    - exists (m + 1). split; [lia |]. rewrite Z.pow_add_r by lia. lia.
    - intros p e Hp. by apply (Hall p).
    - lia.
    - unfold load_ok, LOAD_NUMER, LOAD_DENOM. simpl. lia. }
  exists t'. split; [done |]. split; [done |]. split.
  { rewrite countTombStones_spec by done. simpl. by rewrite Hnotomb. }
  split; [done |]. split; [done |]. split; [done |].
  intros cmpFunc e He Hrefl.
  destruct (lookup_finds_match fuel t' cmpFunc e false)
    as (c & e' & _ & He' & Hmatch & Hlook);
    [done | by apply Hl | done | done |].
  exists e'. split; [by apply Hl |]. split; [done |]. split.
  - intros [_ Hdist]. apply Hdist; [by apply Hl | done | done].
  - apply dvmHashTableLookup_counting. eauto.
Qed.

Lemma reachable_tableACD : reachable (reverse keysABCD) tableACD.
Proof.
  refine (reach_remove _ tableABCD 8 1 12 true tableACD
            reachable_tableABCD _ _ eq_refl).
  - unfold is_u4, U4_MOD. lia.
  - split; done.
Qed.

Lemma resize_keeps_entries_witness :
  ∃ t',
    resizeHash 16 tableACD 16 = Done (true, t') ∧ numDeadEntries t' = 0 ∧
    dvmHashTableLookup 16 t' 4 14 cmp_identity false = Done (14, t').
Proof.
  destruct (resize_keeps_entries 16 tableACD) as (t' & Hr & Hd & _ & _ & _ & _ & Hfind).
  - apply (reachable_Inv _ _ reachable_tableACD).
  - vm_compute. discriminate.
  - vm_compute. lia.
  - exists t'. split; [exact Hr |]. split; [exact Hd |].
    destruct (Hfind cmp_identity (mkEntry 4 14)) as (e' & _ & _ & Heq & Hl).
    + exists 4%nat. split; reflexivity.
    + split; reflexivity.
    + rewrite (Heq (distinct_identity _)) in Hl. exact Hl.
Defined.

(** C4.  Whenever a lookup with [doAdd] set returns having added an entry,
    the table is not more than 5/8 full: (numEntries + numDeadEntries) * 8
    <= tableSize * 5 holds for the table it returns, which has either the
    capacity it had, or twice that capacity and no Tombstones because the
    new entry had made it more than 5/8 full.  A lookup that adds nothing
    leaves the table as it is.  The lookup does return when the capacity
    times 5 fits in an [int] and the fuel covers a probe of the doubled
    table. *)
Theorem insertion_restores_load t itemHash item cmpFunc :
  Inv t → is_u4 itemHash → valid_item item →
  (∀ fuel result t',
     dvmHashTableLookup fuel t itemHash item cmpFunc true = Done (result, t') →
     (added t t' = false ∧ t' = t) ∨
     (added t t' = true ∧ result = item ∧
      numEntries t' = numEntries t + 1 ∧
      (numEntries t' + numDeadEntries t') * 8 ≤ tableSize t' * 5 ∧
      ((tableSize t' = tableSize t ∧ numDeadEntries t' = numDeadEntries t) ∨
       (tableSize t' = 2 * tableSize t ∧ numDeadEntries t' = 0 ∧
        tableSize t * 5 < (numEntries t + 1 + numDeadEntries t) * 8)))) ∧
  (tableSize t * 5 ≤ INT_MAX →
   ∀ fuel, (Z.to_nat (2 * tableSize t) ≤ fuel)%nat →
     ∃ result t',
       dvmHashTableLookup fuel t itemHash item cmpFunc true
         = Done (result, t')).
Proof.
  intros HInv Hh Hitem. split.
  - intros fuel result t' Hl.
    apply dvmHashTableLookup_counting in Hl as [c Hl].
    destruct (lookup_counting_cases _ _ _ _ _ _ _ _ _ HInv Hh Hitem Hl)
      as (e & _ & _ & _ &
          [(_ & _ & _ & ->) | [(_ & ? & _) | (_ & _ & -> & Hadd)]]);
      [left; by rewrite added_same | done | right].
    split; [by eapply added_true |]. split; [done |].
    destruct Hadd as ([_ Hload] & Hn & _ & _ & _ & Hsize).
    unfold load_ok, LOAD_DENOM, LOAD_NUMER in *. done.
  - intros Hmax fuel Hfuel.
    destruct (lookup_counting_total fuel t itemHash item cmpFunc true)
      as ([[r t'] c] & Hl); [done .. |].
    exists r, t'. apply dvmHashTableLookup_counting. eauto.
Qed.

Lemma insertion_restores_load_witness :
  (numEntries (table_after 3) + numDeadEntries (table_after 3)) * 8
    ≤ tableSize (table_after 3) * 5 ∧
  tableSize (table_after 3) = 2 * tableSize (table_after 2).
Proof.
  destruct (insertion_restores_load (table_after 2) 2 13 cmp_identity)
    as [Hpost _].
  - apply (reachable_Inv _ _ reachable_table_after2).
  - unfold is_u4, U4_MOD. lia.
  - split; discriminate.
  - destruct (Hpost 16%nat 13 (table_after 3) eq_refl)
      as [[Hadded _] | (_ & _ & _ & Hload & [[Hsize _] | (Hsize & _)])].
    + discriminate Hadded.
    + discriminate Hsize.
    + split; [exact Hload | exact Hsize].
Defined.

(** C5.  A removal returns, and it returns true exactly when a slot on the
    probe path from the home slot of the hash (the slots reached before the
    first Empty slot) holds the very value passed.  Then the first such
    slot, and no other, becomes a Tombstone, [numEntries] goes down by one
    and [numDeadEntries] up by one; when it returns false the table is as
    it was.  The release function is never called. *)
Theorem dvmHashTableRemove_spec fuel t itemHash item :
  Inv t →
  (Z.to_nat (tableSize t) ≤ fuel)%nat →
  ∃ removed t',
    dvmHashTableRemove fuel t itemHash item = Done (removed, t') ∧
    (removed = true ↔
     ∃ q e, on_probe_path t itemHash q ∧
            pEntries t !! Z.to_nat q = Some e ∧ data e = item) ∧
    (removed = true →
     ∃ k e,
       first_stop (remove_stop item) (pEntries t) (tableSize t)
         (home (tableSize t) itemHash) k ∧
       pEntries t
         !! Z.to_nat (slot (tableSize t) (home (tableSize t) itemHash) k)
         = Some e ∧
       data e = item ∧
       t' = mkTable (tableSize t) (numEntries t - 1) (numDeadEntries t + 1)
              (<[Z.to_nat (slot (tableSize t) (home (tableSize t) itemHash) k)
                 := mkEntry (hashValue e) HASH_TOMBSTONE]> (pEntries t))
              (freeFunc t) (freed t)) ∧
    (removed = false → t' = t) ∧
    freed t' = freed t.
Proof.
  intros HInv Hfuel.
  destruct (remove_total fuel t itemHash item HInv Hfuel)
    as (k & e & Hk & Hfs & He & [[Hempty Hr] | (Hne & Hitem & Hr)]).
  - exists false, t. split; [done |]. split; [| done]. split; [done |].
    intros (q & e' & (k' & Hk' & -> & Hpath) & He' & Hitem). exfalso.
    pose proof Hfs as (_ & Hbefore & _).
    destruct (decide (k ≤ k')) as [Hle | Hgt].
    + destruct (Hpath k) as (e2 & He2 & Hne2); [lia |]. congruence.
    + destruct (Hbefore k') as (e2 & He2 & [_ Hne2]%remove_stop_false);
        [lia |]. congruence.
  - exists true. eexists. split; [done |]. split; [| split; [| done]].
    + split; [intros _ | done].
      exists (slot (tableSize t) (home (tableSize t) itemHash) k), e.
      split; [| done]. exists k. split; [lia |]. split; [done |].
      intros j Hj. pose proof Hfs as (_ & Hbefore & _).
      destruct (decide (j = k)) as [-> | Hjk]; [by exists e |].
      destruct (Hbefore j) as (e2 & He2 & [Hne2 _]%remove_stop_false);
        [lia |]. by exists e2.
    + intros _. exists k, e. done.
Qed.

Lemma dvmHashTableRemove_spec_witness :
  ∃ removed t',
    dvmHashTableRemove 8 tableABCD 1 12 = Done (removed, t') ∧
    (removed = false → t' = tableABCD) ∧ freed t' = freed tableABCD.
Proof.
  destruct (dvmHashTableRemove_spec 8 tableABCD 1 12)
    as (removed & t' & Hr & _ & _ & Hfalse & Hfreed).
  - apply (reachable_Inv _ _ reachable_tableABCD).
  - vm_compute. lia.
  - exists removed, t'. split; [exact Hr |]. split; [exact Hfalse | exact Hfreed].
Defined.





(** C7.  When the probe of a lookup comes to an Occupied slot whose stored
    hash is the hash given and whose value the comparison function accepts
    (before any Empty slot and any other such slot), the lookup returns the
    value stored in that slot and the table is unchanged in every field,
    whether [doAdd] is set or not. *)
Theorem lookup_found_no_mutation fuel t itemHash item cmpFunc doAdd k e :
  wf t →
  first_stop (lookup_stop cmpFunc itemHash item) (pEntries t) (tableSize t)
    (home (tableSize t) itemHash) k →
  pEntries t !! Z.to_nat (slot (tableSize t) (home (tableSize t) itemHash) k)
    = Some e →
  is_live e = true →
  hashValue e = itemHash →
  cmpFunc (data e) item = 0 →
  (Z.to_nat k < fuel)%nat →
  dvmHashTableLookup fuel t itemHash item cmpFunc doAdd = Done (data e, t).
Proof.
  intros Hwf Hfs He Hlive _ _ Hfuel.
  apply dvmHashTableLookup_counting. exists k.
  rewrite (lookup_counting_eval _ _ _ _ _ _ k e) by done.
  by rewrite (live_not_empty _ Hlive).
Qed.

Lemma lookup_found_no_mutation_witness :
  dvmHashTableLookup 8 tableABCD 4 14 cmp_identity true = Done (14, tableABCD).
Proof.
  apply (lookup_found_no_mutation 8 tableABCD 4 14 cmp_identity true 0
           (mkEntry 4 14)).
  - apply (reachable_Inv _ _ reachable_tableABCD).
  - split; [lia |]. split; [intros j Hj; lia |].
    exists (mkEntry 4 14). split; reflexivity.
  - reflexivity.
  - reflexivity.
  - reflexivity.
  - reflexivity.
  - vm_compute. lia.
Defined.

(** C8.  On a table whose stored keys are distinct, a traversal whose
    visitor answers remove (1) for the value of one Occupied slot and keep
    (0) for the values of all others returns the continue code 0;
    [numEntries] has gone down by one and [numDeadEntries] up by one, the
    slot of the removed entry is a Tombstone and no other slot has
    changed, and the release function has not been called.  Afterwards a
    lookup for the removed entry returns absent, and a lookup for any
    entry that was kept returns its value. *)
Theorem foreachRemove_one_entry fuel t func cmpFunc (y : nat) ey :
  Inv t →
  distinct_slots cmpFunc (pEntries t) →
  pEntries t !! y = Some ey → is_live ey = true → func (data ey) = 1 →
  (∀ (p : nat) e, pEntries t !! p = Some e → is_live e = true → p ≠ y →
     func (data e) = 0) →
  (Z.to_nat (tableSize t) ≤ fuel)%nat →
  ∃ t',
    dvmHashForeachRemove t func = Done (0, t') ∧
    numEntries t' = numEntries t - 1 ∧
    numDeadEntries t' = numDeadEntries t + 1 ∧
    tableSize t' = tableSize t ∧
    pEntries t' = <[y := mkEntry (hashValue ey) HASH_TOMBSTONE]> (pEntries t) ∧
    freed t' = freed t ∧
    dvmHashTableLookup fuel t' (hashValue ey) (data ey) cmpFunc false
      = Done (NULL, t') ∧
    ∀ (p : nat) e, pEntries t !! p = Some e → is_live e = true → p ≠ y →
      dvmHashTableLookup fuel t' (hashValue e) (data e) cmpFunc false
        = Done (data e, t').
Proof.
  intros HInv [Hrefl Hdist] Hy Hlive Hrm Hkeep Hfuel.
  exists (tombstoned t y ey).
  split; [by apply foreachRemove_one |].
  destruct (tombstoned_Inv t y ey HInv Hy Hlive) as (HInv' & Hsub & Hsup).
  do 5 (split; [done |]). split.
  - destruct (lookup_misses fuel (tombstoned t y ey) cmpFunc (hashValue ey)
                (data ey)) as (c & _ & Hl); [done | | done |].
    + intros x (p & Hp & Hx) Hmatch. rewrite entry_eta in Hmatch.
      destruct (Hsub p x Hp Hx) as [Hne Hp']. apply Hne.
      by apply (Hdist p y x ey).
    + apply dvmHashTableLookup_counting. eauto.
  - intros p e Hp He Hne.
    destruct (lookup_finds fuel (tombstoned t y ey) cmpFunc e false)
      as (c & _ & Hl); [done | | | done |].
    + split.
      * intros a (q & Hq & Ha). destruct (Hsub q a Hq Ha) as [_ Hq'].
        by apply (Hrefl q).
      * intros a b (q & Hq & Ha) (r & Hr & Hb) Hmatch.
        destruct (Hsub q a Hq Ha) as [_ Hq'].
        destruct (Hsub r b Hr Hb) as [_ Hr'].
        assert (q = r) as -> by (by apply (Hdist q r a b)). congruence.
    + exists p. split; [by apply Hsup | done].
    + apply dvmHashTableLookup_counting. eauto.
Qed.

Lemma distinct_slots_tableABCD : distinct_slots cmp_identity (pEntries tableABCD).
Proof.
  split.
  - intros p a _ _. by apply (distinct_identity (λ _, True)).
  - intros p q a b Hp Hq Ha Hb [_ Hd]. unfold cmp_identity in Hd.
    destruct (Z.eqb_spec (data a) (data b)) as [Heq | ?]; [| done]. clear Hd.
    destruct p as [| [| [| [| [| [| [| [| p]]]]]]]]; simplify_eq/=;
      destruct q as [| [| [| [| [| [| [| [| q]]]]]]]]; simplify_eq/=; done.
Qed.

Lemma foreachRemove_one_entry_witness :
  ∃ t',
    dvmHashForeachRemove tableABCD remove_B = Done (0, t') ∧
    numEntries t' = numEntries tableABCD - 1 ∧
    numDeadEntries t' = numDeadEntries tableABCD + 1 ∧
    dvmHashTableLookup 8 t' 1 12 cmp_identity false = Done (NULL, t') ∧
    dvmHashTableLookup 8 t' 4 14 cmp_identity false = Done (14, t').
Proof.
  destruct (foreachRemove_one_entry 8 tableABCD remove_B cmp_identity 1
              (mkEntry 1 12))
    as (t' & Hf & Hn & Hd & _ & _ & _ & Hgone & Hkept).
  - apply (reachable_Inv _ _ reachable_tableABCD).
  - apply distinct_slots_tableABCD.
  - reflexivity.
  - reflexivity.
  - reflexivity.
  - intros p e Hp He Hne.
    destruct p as [| [| [| [| [| [| [| [| p]]]]]]]]; simplify_eq/=; done.
  - vm_compute. lia.
  - exists t'. split; [exact Hf |]. split; [exact Hn |]. split; [exact Hd |].
    split; [exact Hgone |].
    apply (Hkept 4%nat (mkEntry 4 14)); [reflexivity | reflexivity | lia].
Defined.

(** C9.  In every table the public operations (lookup with or without
    [doAdd], and with it the resize, remove, clear and the removing
    traversal) produce from a created one, [numEntries] is the number of
    Occupied slots of the array and [numDeadEntries] the number of
    Tombstone slots, which is also what [countTombStones] counts. *)
Theorem counts_match_slots ins t :
  reachable ins t →
  numEntries t = count_if is_live (pEntries t) ∧
  numDeadEntries t = count_if is_tombstone (pEntries t) ∧
  countTombStones t = Done (numDeadEntries t).
Proof.
  intros [[[Hwf Hlive Hdead _] _] _]%reachable_Inv.
  split; [done |]. split; [done |].
  rewrite countTombStones_spec by apply Hwf. by rewrite Hdead.
Qed.

Lemma counts_match_slots_witness :
  numEntries tableACD = count_if is_live (pEntries tableACD) ∧
  numDeadEntries tableACD = count_if is_tombstone (pEntries tableACD) ∧
  countTombStones tableACD = Done (numDeadEntries tableACD).
Proof.
  apply (counts_match_slots (reverse keysABCD) tableACD).
  apply reachable_tableACD.
Defined.

(** What the contract on items in [reachable] excludes: remove has no
    assertion on its item, and handed the tombstone marker itself it takes
    a Tombstone slot for the entry to remove and counts it once more. *)
Lemma remove_tombstone_marker :
  dvmHashTableRemove 8 tableACD 1 HASH_TOMBSTONE
    = Done (true, mkTable 8 2 2 (pEntries tableACD) false []) ∧
  count_if is_live (pEntries tableACD) = 3 ∧
  count_if is_tombstone (pEntries tableACD) = 1.
Proof. split; [reflexivity |]. split; reflexivity. Qed.

(** C10, as stated, fails where the [size_t] arithmetic of [dvmHashSize]
    wraps around: for 2^29 elements and a [size_t] of 32 bits (and for 2^61
    elements and 64 bits) the capacity computed is 1, and the table created
    with that hint is doubled by the first insertion. *)
Lemma dvmHashSize_wraps :
  1 ≤ 2 ^ 29 ∧ dvmHashSize 32 (2 ^ 29) = 1 ∧
  ¬ (2 ^ 29 * 8 ≤ dvmHashSize 32 (2 ^ 29) * 5) ∧
  ¬ (2 ^ 61 * 8 ≤ dvmHashSize 64 (2 ^ 61) * 5) ∧
  ∃ t0 t1,
    dvmHashTableCreate (dvmHashSize 32 (2 ^ 29)) false = Some t0 ∧
    dvmHashTableLookup 2 t0 0 11 cmp_identity true = Done (11, t1) ∧
    tableSize t1 = 2 * tableSize t0.
Proof.
  split; [lia |]. split; [reflexivity |].
  split; [vm_compute; by intros H |]. split; [vm_compute; by intros H |].
  eexists. eexists. split; [reflexivity |]. split; reflexivity.
Qed.

Lemma dvmHashSize_exact w n :
  1 ≤ n → n * 8 < 2 ^ w → dvmHashSize w n = n * 8 / 5 + 1.
Proof.
  intros Hn Hw. unfold dvmHashSize, LOAD_DENOM, LOAD_NUMER.
  rewrite (Z.mod_small (n * 8)) by lia.
  apply Z.mod_small.
  assert (0 ≤ n * 8 / 5 ∧ n * 8 / 5 + 1 ≤ n * 8) as [? ?]
    by (Z.div_mod_to_equations; lia).
  generalize dependent (2 ^ w). intros. lia.
Qed.

Lemma insert_all_no_resize fuel cmpFunc keys :
  ∀ t,
    Inv t → Forall valid_key keys →
    (numEntries t + numDeadEntries t + Z.of_nat (length keys)) * 8
      ≤ tableSize t * 5 →
    tableSize t * 5 ≤ INT_MAX →
    (Z.to_nat (2 * tableSize t) ≤ fuel)%nat →
    ∃ t', insert_all fuel cmpFunc t keys = Done t' ∧
          tableSize t' = tableSize t.
Proof.
  induction keys as [| k keys IH]; intros t HInv Hvalid Hroom Hmax Hfuel.
  - exists t. done.
  - apply Forall_cons in Hvalid as [[Hh Hitem] Hvalid].
    destruct (lookup_counting_total fuel t (hashValue k) (data k) cmpFunc true)
      as ([[r t1] c] & Hl); [done .. |].
    simpl. rewrite (proj2 (dvmHashTableLookup_counting _ _ _ _ _ _ _ _))
      by eauto. simpl bind. simpl length in Hroom.
    destruct (lookup_counting_cases _ _ _ _ _ _ _ _ _ HInv Hh Hitem Hl)
      as (e & _ & _ & _ &
          [(_ & _ & _ & ->) | [(_ & ? & _) | (_ & _ & _ & Hadd)]]);
      [apply IH; [done | done | lia | done | done] | done |].
    destruct Hadd as (HInv1 & Hn1 & _ & _ & _ & [[Hsize Hd1] | (_ & _ & Hfull)]).
    + destruct (IH t1) as (t' & Hall & Hsize'); [done | done | | | |].
      * rewrite Hsize, Hn1, Hd1. lia.
      * by rewrite Hsize.
      * by rewrite Hsize.
      * exists t'. split; [done | congruence].
    + unfold LOAD_DENOM, LOAD_NUMER in Hfull. lia.
Qed.

(** C10, amended.  For every n >= 1 for which n * 8 does not wrap around
    in [size_t], n * 8 <= dvmHashSize(n) * 5.  A table created with the
    hint dvmHashSize(n), whose capacity is the hint rounded up to a power
    of two, takes any n insertions without becoming more than 5/8 full:
    after each of them it has the capacity it was created with (the
    capacity times 5 has to fit in an [int] for the load check to be
    defined). *)
Theorem dvmHashSize_absorbs w n fuel cmpFunc ff keys :
  1 ≤ n → n * 8 < 2 ^ w →
  n * 8 ≤ dvmHashSize w n * 5 ∧
  (dexRoundUpPower2 (dvmHashSize w n) * 5 ≤ INT_MAX →
   Forall valid_key keys → Z.of_nat (length keys) ≤ n →
   (Z.to_nat (2 * dexRoundUpPower2 (dvmHashSize w n)) ≤ fuel)%nat →
   ∃ t0,
     dvmHashTableCreate (dvmHashSize w n) ff = Some t0 ∧
     dvmHashSize w n ≤ tableSize t0 ∧
     ∀ m : nat, ∃ t',
       insert_all fuel cmpFunc t0 (take m keys) = Done t' ∧
       tableSize t' = tableSize t0).
Proof.
  intros Hn Hw. rewrite (dvmHashSize_exact w n Hn Hw).
  assert (0 < n * 8 / 5 + 1 ∧ n * 8 ≤ (n * 8 / 5 + 1) * 5) as [Hpos Hcap]
    by (Z.div_mod_to_equations; lia).
  split; [done |].
  intros Hmax Hvalid Hlen Hfuel.
  pose proof (Z.log2_log2_up_spec _ Hpos) as [_ Hup].
  fold (dexRoundUpPower2 (n * 8 / 5 + 1)) in Hup.
  destruct (create_spec (n * 8 / 5 + 1) ff)
    as (t0 & Hcreate & HInv & Hsize & Hle & Hn0 & Hd0 & _).
  { unfold INT_MAX in Hmax. lia. }
  exists t0. split; [done |]. split; [done |]. intros m.
  apply insert_all_no_resize.
  - done.
  - by apply Forall_take.
  - rewrite Hn0, Hd0, length_take. lia.
  - by rewrite Hsize.
  - by rewrite Hsize.
Qed.

Lemma dvmHashSize_absorbs_witness :
  3 * 8 ≤ dvmHashSize 32 3 * 5 ∧
  ∃ t0 t',
    dvmHashTableCreate (dvmHashSize 32 3) false = Some t0 ∧
    insert_all 16 cmp_identity t0 (take 3 keysABCD) = Done t' ∧
    tableSize t' = tableSize t0.
Proof.
  destruct (dvmHashSize_absorbs 32 3 16 cmp_identity false (take 3 keysABCD))
    as [Hsize Hall].
  - lia.
  - vm_compute. reflexivity.
  - split; [exact Hsize |].
    destruct Hall as (t0 & Hcreate & _ & Hins).
    + vm_compute. discriminate.
    + repeat (apply Forall_cons; split; [by apply valid_key_intro |]).
      apply Forall_nil. done.
    + vm_compute. discriminate.
    + vm_compute. lia.
    + destruct (Hins 3%nat) as (t' & Ht' & Hs).
      exists t0, t'. split; [exact Hcreate |]. split; [exact Ht' | exact Hs].
Defined.

(** * Further properties *)

(** ** dvmHashTableClear *)

Lemma live_data_app es1 es2 :
  live_data (es1 ++ es2) = live_data es1 ++ live_data es2.
Proof.
  induction es1 as [| e es1 IH]; simpl; [done |].
  destruct (is_live e); simpl; by rewrite IH.
Qed.

Lemma live_data_length es :
  Z.of_nat (length (live_data es)) = count_if is_live es.
Proof.
  induction es as [| e es IH]; simpl; [done |].
  destruct (is_live e); simpl; lia.
Qed.

Lemma elem_of_live_data es v :
  v ∈ live_data es ↔ ∃ e, live_in es e ∧ data e = v.
Proof.
  induction es as [| e es IH]; simpl.
  - rewrite elem_of_nil. split; [done |].
    intros (e & (p & Hp & _) & _). by destruct p.
  - assert (∀ x, live_in (e :: es) x
                 ↔ (x = e ∧ is_live e = true) ∨ live_in es x) as Hcons.
    { intros x. rewrite !live_in_elem_of, elem_of_cons.
      split; [intros [[-> | ?] ?]; auto | intros [[-> ?] | [? ?]]; auto]. }
    destruct (is_live e) eqn:Hlive.
    + rewrite elem_of_cons, IH. split.
      * intros [-> | (x & Hx & Hd)].
        -- exists e. split; [apply Hcons; auto | done].
        -- exists x. split; [apply Hcons; auto | done].
      * intros (x & [[-> _] | Hx]%Hcons & Hd); [by left | right; eauto].
    + rewrite IH. split.
      * intros (x & Hx & Hd). exists x. split; [apply Hcons; auto | done].
      * intros (x & [[-> ?] | Hx]%Hcons & Hd); [done | eauto].
Qed.

(** The calls of the release function during the loop of clear. *)
Lemma clear_loop_freed (i : nat) :
  ∀ t (p : nat) t', (p + i ≤ length (pEntries t))%nat →
  clear_loop i t (Z.of_nat p) = Done t' →
  freeFunc t' = freeFunc t ∧
  freed t' = freed t ++
    (if freeFunc t then live_data (take i (drop p (pEntries t))) else []).
Proof.
  induction i as [| i IH]; intros t p t' Hlen Hloop.
  - simpl in *. simplify_eq. split; [done |].
    destruct (freeFunc t'); by rewrite app_nil_r.
  - destruct (lookup_lt_is_Some_2 (pEntries t) p) as [e He]; [lia |].
    simpl in Hloop. rewrite (load_lookup _ _ _ He) in Hloop. simpl in Hloop.
    replace (Z.of_nat p + 1) with (Z.of_nat (S p)) in Hloop by lia.
    rewrite (drop_S _ _ _ He). simpl take. simpl live_data.
    set (t1 := if data e =? HASH_TOMBSTONE then _ else _) in Hloop.
    assert (freeFunc t1 = freeFunc t ∧
            pEntries t1 = <[p := mkEntry (hashValue e) NULL]> (pEntries t) ∧
            freed t1 = freed t ++
              (if freeFunc t && is_live e then [data e] else []))
      as (Hff1 & Hes1 & Hfr1).
    { unfold t1, set_data, is_live. rewrite Nat2Z.id.
      destruct (Z.eqb_spec (data e) HASH_TOMBSTONE).
      - simpl. rewrite (alter_insert _ _ _ e) by done.
        by rewrite andb_false_r, andb_false_r, app_nil_r.
      - destruct (Z.eqb_spec (data e) NULL) as [Hnull | Hnull]; simpl.
        + rewrite andb_false_r, app_nil_r. split; [done |]. split; [| done].
          rewrite <- Hnull, entry_eta. by rewrite list_insert_id.
        + destruct (freeFunc t) eqn:Hff; simpl;
            rewrite (alter_insert _ _ _ e) by done; rewrite ?Hff;
            by rewrite ?app_nil_r. }
    clearbody t1.
    destruct (IH t1 (S p) t') as [Hff Hfr]; [| done |].
    { rewrite Hes1, length_insert. lia. }
    split; [congruence |].
    rewrite Hfr, Hfr1, Hff1, Hes1, drop_insert_lt by lia.
    destruct (freeFunc t), (is_live e); simpl;
      by rewrite <- ?app_assoc, ?app_nil_r.
Qed.

(** X1.  Clearing a table of consistent shape returns.  Every slot is
    Empty afterwards, both counts are zero and the capacity is the same.
    When the table has a release function, it has been called on the
    values of the Occupied slots, once each and in the order of the slots,
    and on nothing else (not on a Tombstone); without one nothing is
    called. *)
Theorem clear_releases_live_values t :
  wf t →
  ∃ t',
    dvmHashTableClear t = Done t' ∧
    tableSize t' = tableSize t ∧
    length (pEntries t') = length (pEntries t) ∧
    (∀ (p : nat) e, pEntries t' !! p = Some e → data e = NULL) ∧
    numEntries t' = 0 ∧ numDeadEntries t' = 0 ∧
    freeFunc t' = freeFunc t ∧
    freed t' = freed t ++
      (if freeFunc t then live_data (pEntries t) else []).
Proof.
  intros Hwf. pose proof (wf_length t Hwf) as Hlen.
  destruct (clear_spec t Hwf) as (t' & Hc & _ & Hsize & Hn & Hd & Hempty).
  exists t'. split; [done |]. split; [done |].
  unfold dvmHashTableClear in Hc.
  apply bind_Done in Hc as (t1 & Hloop & Heq). simplify_eq. simpl in *.
  assert (Z.to_nat (tableSize t) = length (pEntries t)) as Hnat by lia.
  rewrite Hnat in Hloop.
  destruct (clear_loop_spec (length (pEntries t)) t 0)
    as (t2 & Hloop2 & _ & Hlen2 & _); [lia |].
  change (Z.of_nat 0) with 0 in Hloop2. rewrite Hloop2 in Hloop. simplify_eq.
  split; [done |]. split.
  { intros p e Hp. apply Z.eqb_eq. by apply (Hempty p). }
  split; [done |]. split; [done |].
  destruct (clear_loop_freed (length (pEntries t)) t 0 t1) as [Hff Hfr];
    [lia | done |].
  split; [done |]. rewrite Hfr, drop_0, firstn_all. done.
Qed.

Lemma wf_tableACD_release : wf tableACD_release.
Proof.
  split.
  - exists 3. split; [lia | reflexivity].
  - reflexivity.
  - intros p e Hp. unfold is_u4, U4_MOD.
    destruct p as [| [| [| [| [| [| [| [| p]]]]]]]]; simplify_eq/=; lia.
Qed.

Lemma clear_releases_live_values_witness :
  ∃ t', dvmHashTableClear tableACD_release = Done t' ∧
        freed t' = [5; 11; 13; 14] ∧ numEntries t' = 0.
Proof.
  destruct (clear_releases_live_values tableACD_release wf_tableACD_release)
    as (t' & Hc & _ & _ & _ & Hn & _ & _ & Hfr).
  exists t'. split; [exact Hc |]. split; [exact Hfr | exact Hn].
Defined.

(** ** Lookups on the reachable tables *)

(** A probe that ends at an Empty slot has passed every stored entry with
    the hash looked for: none of them matches. *)
Lemma probe_empty_no_match t cmpFunc itemHash item k e0 :
  consistent t →
  first_stop (lookup_stop cmpFunc itemHash item) (pEntries t) (tableSize t)
    (home (tableSize t) itemHash) k →
  pEntries t !! Z.to_nat (slot (tableSize t) (home (tableSize t) itemHash) k)
    = Some e0 →
  is_empty e0 = true →
  no_match cmpFunc t itemHash item.
Proof.
  intros Hcon Hfs He0 Hempty e (p & Hp & Hlive) Hmatch.
  pose proof (wf_size t (con_wf t Hcon)) as HT.
  pose proof (wf_length t (con_wf t Hcon)) as Hlen.
  pose proof (lookup_lt_Some _ _ _ Hp) as Hplt.
  pose proof Hmatch as [Hh _]. simpl in Hh.
  pose proof (offset_range (tableSize t) (proj1 HT)
                (home (tableSize t) itemHash) (Z.of_nat p)) as Hd.
  pose proof Hfs as (Hk & Hbefore & _).
  destruct (Z.lt_trichotomy k ((Z.of_nat p - home (tableSize t) itemHash)
                               `mod` tableSize t)) as [Hlt | [Heq | Hgt]].
  - destruct (con_path t Hcon p e Hp Hlive k) as (e' & He' & Hne');
      [rewrite Hh; lia |]. rewrite Hh in He'. congruence.
  - rewrite Heq, slot_offset, Nat2Z.id in He0 by lia.
    simplify_eq. by rewrite (live_not_empty _ Hlive) in Hempty.
  - destruct (Hbefore _ (conj (proj1 Hd) Hgt)) as (e' & He' & Hs').
    rewrite slot_offset, Nat2Z.id in He' by lia. simplify_eq.
    by rewrite lookup_stop_live in Hs'.
Qed.

(** X2.  On every table the public operations produce, a lookup without
    [doAdd] returns for every key (the probe ends within the capacity and
    stays inside the array) and leaves the table as it is.  It returns
    [NULL] exactly when no stored entry matches the key; otherwise it
    returns the value of a stored entry that matches. *)
Theorem lookup_exact ins t fuel itemHash item cmpFunc :
  reachable ins t →
  (Z.to_nat (tableSize t) ≤ fuel)%nat →
  ∃ result count,
    lookup_counting fuel t itemHash item cmpFunc false
      = Done (result, t, count) ∧
    0 ≤ count < tableSize t ∧
    ((result = NULL ∧ no_match cmpFunc t itemHash item) ∨
     (result ≠ NULL ∧
      ∃ e, live_in (pEntries t) e ∧
           key_match cmpFunc e (mkEntry itemHash item) ∧ result = data e)).
Proof.
  intros [HInv _]%reachable_Inv Hfuel. pose proof HInv as [Hcon _].
  destruct (lookup_probe t cmpFunc itemHash item Hcon (Inv_room t HInv))
    as (k & e & Hk & Hfs & He & Hs).
  rewrite (lookup_counting_eval _ _ _ _ _ _ k e);
    [| apply Hcon | done | done | lia].
  destruct (is_empty e) eqn:Hempty.
  - exists NULL, k. split; [done |]. split; [done |]. left.
    split; [done |]. by eapply probe_empty_no_match.
  - exists (data e), k. split; [done |]. split; [done |]. right.
    destruct (lookup_stop_true _ _ _ _ Hs Hempty) as [Hlive Hmatch].
    split; [by apply Z.eqb_neq |]. exists e. split; [| done].
    by eexists.
Qed.

Lemma lookup_exact_witness :
  ∃ result count,
    lookup_counting 8 tableACD 1 12 cmp_identity false
      = Done (result, tableACD, count) ∧
    0 ≤ count < tableSize tableACD.
Proof.
  destruct (lookup_exact (reverse keysABCD) tableACD 8 1 12 cmp_identity)
    as (result & count & Hl & Hc & _).
  - apply reachable_tableACD.
  - vm_compute. lia.
  - exists result, count. split; [exact Hl | exact Hc].
Defined.

(** X3.  Tombstones do not cut probe chains: on every table the public
    operations produce, a lookup for the key of any stored entry (with its
    stored hash, and a comparison function that accepts the entry against
    itself) returns the value of a stored entry that matches, with or
    without [doAdd], and leaves the table as it is; so asking to add a key
    that is stored adds nothing.  When no other stored entry matches, the
    value returned is the entry's own. *)
Theorem stored_entry_found ins t fuel cmpFunc doAdd e :
  reachable ins t →
  live_in (pEntries t) e →
  key_match cmpFunc e e →
  (Z.to_nat (tableSize t) ≤ fuel)%nat →
  ∃ e',
    live_in (pEntries t) e' ∧ key_match cmpFunc e' e ∧
    dvmHashTableLookup fuel t (hashValue e) (data e) cmpFunc doAdd
      = Done (data e', t) ∧
    ((∀ x, live_in (pEntries t) x → key_match cmpFunc x e → x = e) → e' = e).
Proof.
  intros [HInv _]%reachable_Inv Hin Hrefl Hfuel.
  destruct (lookup_finds_match fuel t cmpFunc e doAdd)
    as (c & e' & _ & Hin' & Hmatch & Hl); [done .. |].
  exists e'. split; [done |]. split; [done |]. split.
  - apply dvmHashTableLookup_counting. eauto.
  - intros Honly. by apply Honly.
Qed.

Lemma stored_entry_found_witness :
  ∃ e',
    dvmHashTableLookup 8 tableACD 4 14 cmp_identity true
      = Done (data e', tableACD).
Proof.
  destruct (stored_entry_found (reverse keysABCD) tableACD 8 cmp_identity true
              (mkEntry 4 14)) as (e' & _ & _ & Hl & _).
  - apply reachable_tableACD.
  - exists 4%nat. split; reflexivity.
  - split; reflexivity.
  - vm_compute. lia.
  - exists e'. exact Hl.
Defined.

(** X4.  The table never fills up.  On every table the public operations
    produce, the capacity is a power of two and the length of the array,
    (numEntries + numDeadEntries) * 8 <= tableSize * 5, and so
    [numEntries + numDeadEntries < tableSize]: the assertion that follows
    an insertion holds, and there is an Empty slot for every probe to end
    at. *)
Theorem reachable_never_full ins t :
  reachable ins t →
  (∃ n, 0 ≤ n ≤ 30 ∧ tableSize t = 2 ^ n) ∧
  Z.of_nat (length (pEntries t)) = tableSize t ∧
  0 ≤ numEntries t ∧ 0 ≤ numDeadEntries t ∧
  (numEntries t + numDeadEntries t) * 8 ≤ tableSize t * 5 ∧
  numEntries t + numDeadEntries t < tableSize t ∧
  ∃ (q : nat) e, pEntries t !! q = Some e ∧ data e = NULL.
Proof.
  intros [HInv _]%reachable_Inv. pose proof HInv as [Hcon Hload].
  pose proof (Inv_room t HInv) as Hroom.
  pose proof (count_if_nonneg is_live (pEntries t)).
  pose proof (count_if_nonneg is_tombstone (pEntries t)).
  split; [apply Hcon |]. split; [apply Hcon |].
  split; [rewrite (con_live t Hcon); lia |].
  split; [rewrite (con_dead t Hcon); lia |].
  split; [done |]. split; [done |].
  destruct (consistent_has_empty t Hcon Hroom) as (q & e & Hq & He).
  exists q, e. split; [done |]. by apply Z.eqb_eq.
Qed.

Lemma reachable_never_full_witness :
  numEntries tableACD + numDeadEntries tableACD < tableSize tableACD.
Proof.
  destruct (reachable_never_full (reverse keysABCD) tableACD)
    as (_ & _ & _ & _ & _ & Hroom & _).
  - apply reachable_tableACD.
  - exact Hroom.
Defined.

(** X5.  Insert, then look up, on any table the public operations
    produce.  A lookup with [doAdd] that adds returns the item itself, and
    it adds only when no stored entry matched the key; from then on a
    lookup for the key returns the item, whether or not the insertion has
    resized the table, and every entry that was stored is stored still.  A
    lookup with [doAdd] that does not add leaves the table as it is and
    returns the value of a stored entry that matches. *)
Theorem insert_then_found ins t fuel itemHash item cmpFunc result t' :
  reachable ins t →
  is_u4 itemHash → valid_item item → cmpFunc item item = 0 →
  dvmHashTableLookup fuel t itemHash item cmpFunc true = Done (result, t') →
  (added t t' = false →
   t' = t ∧
   ∃ e, live_in (pEntries t) e ∧
        key_match cmpFunc e (mkEntry itemHash item) ∧ result = data e) ∧
  (added t t' = true →
   result = item ∧ no_match cmpFunc t itemHash item ∧
   (∀ e, live_in (pEntries t) e → live_in (pEntries t') e) ∧
   ∀ fuel', (Z.to_nat (tableSize t') ≤ fuel')%nat →
     dvmHashTableLookup fuel' t' itemHash item cmpFunc false
       = Done (item, t')).
Proof.
  intros [HInv _]%reachable_Inv Hh Hitem Hself Hl.
  apply dvmHashTableLookup_counting in Hl as [c Hl].
  destruct (lookup_counting_cases _ _ _ _ _ _ _ _ _ HInv Hh Hitem Hl)
    as (e & _ & Hfs & He &
        [(Hlive & Hmatch & -> & ->) | [(_ & ? & _) | (Hempty & _ & -> & Hadd)]]);
    [| done |].
  - split; [intros _ | by rewrite added_same].
    split; [done |]. exists e. split; [by eexists | done].
  - rewrite (added_true _ _ _ _ Hadd). split; [done |]. intros _.
    assert (no_match cmpFunc t itemHash item) as Hnone.
    { eapply probe_empty_no_match; [apply HInv | done ..]. }
    destruct Hadd as (HInv' & _ & _ & _ & Hlive' & _).
    split; [done |]. split; [done |]. split.
    { intros x Hx. apply Hlive'. by left. }
    intros fuel' Hfuel'.
    destruct (lookup_finds_match fuel' t' cmpFunc (mkEntry itemHash item) false)
      as (c' & e' & _ & Hin' & Hmatch' & Hl'); [done | | done | done |].
    { apply Hlive'. by right. }
    apply Hlive' in Hin' as [Hin' | ->].
    + by destruct (Hnone e').
    + apply dvmHashTableLookup_counting. eauto.
Qed.

Lemma insert_then_found_witness :
  dvmHashTableLookup 8 (table_after 3) 2 13 cmp_identity false
    = Done (13, table_after 3).
Proof.
  destruct (insert_then_found [mkEntry 1 12; mkEntry 0 11] (table_after 2)
              16 2 13 cmp_identity 13 (table_after 3)) as [_ Hadded].
  - apply reachable_table_after2.
  - unfold is_u4, U4_MOD. lia.
  - split; discriminate.
  - reflexivity.
  - reflexivity.
  - destruct Hadded as (_ & _ & _ & Hfind); [reflexivity |].
    apply (Hfind 8%nat). vm_compute. lia.
Defined.

(** ** Removal, then lookup *)

(** A probe from the home slot of a stored entry, with a test that stops at
    Empty slots and at the entry, ends at a slot that is not Empty, not
    later than at the entry. *)
Lemma probe_reaches_entry t stop (p : nat) e k ek :
  consistent t →
  pEntries t !! p = Some e → is_live e = true → stop e = true →
  first_stop stop (pEntries t) (tableSize t)
    (home (tableSize t) (hashValue e)) k →
  pEntries t
    !! Z.to_nat (slot (tableSize t) (home (tableSize t) (hashValue e)) k)
    = Some ek →
  is_empty ek = false ∧
  0 ≤ k ≤ (Z.of_nat p - home (tableSize t) (hashValue e)) mod tableSize t.
Proof.
  intros Hcon Hp Hlive Hstop Hfs Hek.
  pose proof (wf_size t (con_wf t Hcon)) as HT.
  pose proof (wf_length t (con_wf t Hcon)) as Hlen.
  pose proof (lookup_lt_Some _ _ _ Hp) as Hplt.
  pose proof (offset_range (tableSize t) (proj1 HT)
                (home (tableSize t) (hashValue e)) (Z.of_nat p)) as Hd.
  pose proof Hfs as (Hk & Hbefore & _).
  destruct (Z.lt_trichotomy k ((Z.of_nat p - home (tableSize t) (hashValue e))
                               `mod` tableSize t)) as [Hlt | [Heq | Hgt]].
  - destruct (con_path t Hcon p e Hp Hlive k) as (e' & He' & Hne'); [lia |].
    simplify_eq. split; [done | lia].
  - rewrite Heq, slot_offset, Nat2Z.id in Hek by lia. simplify_eq.
    split; [by apply live_not_empty | lia].
  - destruct (Hbefore _ (conj (proj1 Hd) Hgt)) as (e' & He' & Hs').
    rewrite slot_offset, Nat2Z.id in He' by lia. simplify_eq. congruence.
Qed.

(** X6.  Remove, then look up.  On a table the public operations produce,
    removing a stored value by its stored hash, when no other slot holds
    that value, returns true and turns the slot of the entry, and no other,
    into a Tombstone.  After that a lookup for the key of the entry returns
    absent when no other stored entry matches it, and every other stored
    entry is found as before. *)
Theorem remove_then_absent ins t fuel cmpFunc (p : nat) e :
  reachable ins t →
  pEntries t !! p = Some e → is_live e = true →
  (∀ (q : nat) e', pEntries t !! q = Some e' → data e' = data e → q = p) →
  (Z.to_nat (tableSize t) ≤ fuel)%nat →
  dvmHashTableRemove fuel t (hashValue e) (data e)
    = Done (true, tombstoned t p e) ∧
  ((∀ (q : nat) x, pEntries t !! q = Some x → is_live x = true → q ≠ p →
      ¬ key_match cmpFunc x e) →
   dvmHashTableLookup fuel (tombstoned t p e) (hashValue e) (data e)
     cmpFunc false = Done (NULL, tombstoned t p e)) ∧
  (∀ (q : nat) x, pEntries t !! q = Some x → is_live x = true → q ≠ p →
     key_match cmpFunc x x →
     ∃ x', live_in (pEntries t) x' ∧ key_match cmpFunc x' x ∧
           dvmHashTableLookup fuel (tombstoned t p e) (hashValue x) (data x)
             cmpFunc false = Done (data x', tombstoned t p e)).
Proof.
  intros [HInv _]%reachable_Inv Hp Hlive Honly Hfuel.
  pose proof HInv as [Hcon _].
  pose proof (wf_size t (con_wf t Hcon)) as HT.
  destruct (tombstoned_Inv t p e HInv Hp Hlive) as (HInv' & Hsub & Hsup).
  split; [| split].
  - destruct (remove_total fuel t (hashValue e) (data e) HInv Hfuel)
      as (k & ek & Hk & Hfs & Hek & [[Hempty _] | (_ & Hitem & Hr)]).
    + destruct (probe_reaches_entry t (remove_stop (data e)) p e k ek)
        as [Hne _]; [done | done | done | | done | done | congruence].
      unfold remove_stop. by rewrite Z.eqb_refl, orb_true_r.
    + pose proof (Honly _ _ Hek Hitem) as Hq. rewrite Hq in Hek, Hr.
      by simplify_eq.
  - intros Hothers.
    destruct (lookup_misses fuel (tombstoned t p e) cmpFunc (hashValue e)
                (data e)) as (c & _ & Hl); [done | | done |].
    + intros x (q & Hq & Hx) Hmatch. rewrite entry_eta in Hmatch.
      destruct (Hsub q x Hq Hx) as [Hne Hq'].
      by apply (Hothers q x).
    + apply dvmHashTableLookup_counting. eauto.
  - intros q x Hq Hx Hne Hself.
    destruct (lookup_finds_match fuel (tombstoned t p e) cmpFunc x false)
      as (c & x' & _ & (r & Hr & Hx') & Hmatch & Hl);
      [done | | done | done |].
    { exists q. split; [by apply Hsup | done]. }
    exists x'. destruct (Hsub r x' Hr Hx') as [_ Hr'].
    split; [by exists r |]. split; [done |].
    apply dvmHashTableLookup_counting. eauto.
Qed.

Lemma remove_then_absent_witness :
  dvmHashTableRemove 8 tableABCD 1 12 = Done (true, tableACD) ∧
  dvmHashTableLookup 8 tableACD 1 12 cmp_identity false = Done (NULL, tableACD).
Proof.
  destruct (remove_then_absent (reverse keysABCD) tableABCD 8 cmp_identity 1
              (mkEntry 1 12)) as (Hr & Hgone & _).
  - apply reachable_tableABCD.
  - reflexivity.
  - reflexivity.
  - intros q e' Hq Hd.
    destruct q as [| [| [| [| [| [| [| [| q]]]]]]]]; simplify_eq/=; done.
  - vm_compute. lia.
  - split; [exact Hr |]. apply Hgone.
    intros q x Hq Hx Hne [_ Hc].
    destruct q as [| [| [| [| [| [| [| [| q]]]]]]]]; simplify_eq/=; done.
Defined.

(** ** countProbes *)

(** X7.  On a table the public operations produce whose stored keys are
    distinct, [countProbes] for a stored entry returns the distance from
    the home slot of its hash to the slot it is stored in, counted along
    the probe sequence (with wrap-around); it is less than the capacity.
    For a key that no stored entry matches it returns -1. *)
Theorem countProbes_distance ins t fuel cmpFunc :
  reachable ins t →
  (Z.to_nat (tableSize t) ≤ fuel)%nat →
  (∀ (p : nat) e,
     distinct_slots cmpFunc (pEntries t) →
     pEntries t !! p = Some e → is_live e = true →
     countProbes fuel t (hashValue e) (data e) cmpFunc
       = Done ((Z.of_nat p - home (tableSize t) (hashValue e))
               `mod` tableSize t)) ∧
  (∀ itemHash item,
     no_match cmpFunc t itemHash item →
     countProbes fuel t itemHash item cmpFunc = Done (-1)).
Proof.
  intros [HInv _]%reachable_Inv Hfuel. pose proof HInv as [Hcon _].
  pose proof (wf_size t (con_wf t Hcon)) as HT. split.
  - intros p e [Hrefl Hdist] Hp Hlive.
    destruct (lookup_probe t cmpFunc (hashValue e) (data e) Hcon
                (Inv_room t HInv)) as (k & ek & Hk & Hfs & Hek & Hs).
    assert (lookup_stop cmpFunc (hashValue e) (data e) e = true) as Hse.
    { apply lookup_stop_live; [done |]. rewrite entry_eta. by apply (Hrefl p). }
    destruct (probe_reaches_entry t _ p e k ek Hcon Hp Hlive Hse Hfs Hek)
      as [Hne _].
    destruct (lookup_stop_true _ _ _ _ Hs Hne) as [Hlivek Hmatch].
    rewrite entry_eta in Hmatch.
    pose proof (Hdist _ _ _ _ Hek Hp Hlivek Hlive Hmatch) as Hpos.
    pose proof (slot_range (tableSize t) (proj1 HT)
                  (home (tableSize t) (hashValue e)) k) as Hslot.
    assert (slot (tableSize t) (home (tableSize t) (hashValue e)) k
            = Z.of_nat p) as Hslot' by lia.
    rewrite <- Hslot', offset_slot by (done || lia).
    rewrite (countProbes_counting fuel t _ _ _ (data ek) t k).
    + destruct (Z.eqb_spec (data ek) NULL) as [Hnull | ?]; [| done].
      unfold is_empty in Hne. rewrite Hnull in Hne. done.
    + rewrite (lookup_counting_eval _ _ _ _ _ _ k ek);
        [| apply Hcon | done | done | lia]. by rewrite Hne.
  - intros itemHash item Hnone.
    destruct (lookup_misses fuel t cmpFunc itemHash item HInv Hnone Hfuel)
      as (c & _ & Hl).
    by rewrite (countProbes_counting _ _ _ _ _ _ _ _ Hl).
Qed.

Lemma countProbes_distance_witness :
  countProbes 8 tableACD 4 14 cmp_identity = Done 0 ∧
  countProbes 8 tableACD 9 15 cmp_identity = Done (-1).
Proof.
  destruct (countProbes_distance (reverse keysABCD) tableACD 8 cmp_identity)
    as [Hstored Habsent].
  - apply reachable_tableACD.
  - vm_compute. lia.
  - split.
    + apply (Hstored 4%nat (mkEntry 4 14)); [| reflexivity | reflexivity].
      split.
      * intros p a _ _. by apply (distinct_identity (λ _, True)).
      * intros p q a b Hp Hq Ha Hb [_ Hd]. unfold cmp_identity in Hd.
        destruct (Z.eqb_spec (data a) (data b)) as [Heq | ?]; [| done].
        clear Hd.
        destruct p as [| [| [| [| [| [| [| [| p]]]]]]]]; simplify_eq/=;
          destruct q as [| [| [| [| [| [| [| [| q]]]]]]]]; simplify_eq/=; done.
    + apply Habsent. intros e (p & Hp & Hlive) [_ Hc].
      destruct p as [| [| [| [| [| [| [| [| p]]]]]]]]; simplify_eq/=; done.
Defined.

(** ** dvmHashForeachRemove with any visitor *)

Lemma sweep_not_live func e : is_live e = false → sweep func e = e.
Proof. unfold sweep. by intros ->. Qed.

Lemma sweep_keep func e : func (data e) ≠ 1 → sweep func e = e.
Proof.
  unfold sweep. intros ?%Z.eqb_neq. by rewrite H, andb_false_r.
Qed.

Lemma sweep_remove func e :
  is_live e = true → func (data e) = 1 →
  sweep func e = mkEntry (hashValue e) HASH_TOMBSTONE.
Proof. unfold sweep. intros -> ->. done. Qed.

(** The traversal from slot [i] down: it sweeps the slots from [stop] up,
    where [stop] is 0 when it has come to the end, and else the slot above
    the one whose answer has ended it. *)
Lemma foreachRemove_loop_sweep func (i : nat) :
  ∀ t, Inv t → (i ≤ length (pEntries t))%nat →
  ∃ val t' (stop : nat),
    foreachRemove_loop i t func = Done (val, t') ∧ Inv t' ∧
    tableSize t' = tableSize t ∧
    freeFunc t' = freeFunc t ∧ freed t' = freed t ∧
    numEntries t' + numDeadEntries t' = numEntries t + numDeadEntries t ∧
    (stop ≤ i)%nat ∧
    (∀ j : nat,
       pEntries t' !! j =
         if decide (stop ≤ j < i)%nat then sweep func <$> pEntries t !! j
         else pEntries t !! j) ∧
    (∀ (j : nat) e, (stop ≤ j < i)%nat → pEntries t !! j = Some e →
       is_live e = true → func (data e) = 0 ∨ func (data e) = 1) ∧
    ((val = 0 ∧ stop = 0%nat) ∨
     (∃ (y : nat) e, stop = S y ∧ pEntries t !! y = Some e ∧
        is_live e = true ∧ func (data e) = val ∧ val ≠ 0 ∧ val ≠ 1)).
Proof.
  induction i as [| i IH]; intros t HInv Hlen.
  - exists 0, t, 0%nat. simpl. split; [done |]. split; [done |].
    do 4 (split; [done |]). split; [lia |]. split.
    { intros j. destruct (decide (0 ≤ j < 0)%nat); [lia | done]. }
    split; [intros; lia | by left].
  - destruct (lookup_lt_is_Some_2 (pEntries t) i) as [e He]; [lia |].
    simpl. rewrite (load_lookup _ _ _ He). simpl bind.
    change (negb (data e =? NULL) && negb (data e =? HASH_TOMBSTONE))
      with (is_live e).
    assert (∀ t1 val t' stop,
      (stop ≤ i)%nat →
      (∀ j : nat, j ≠ i → pEntries t1 !! j = pEntries t !! j) →
      pEntries t1 !! i = Some (sweep func e) →
      (is_live e = true → func (data e) = 0 ∨ func (data e) = 1) →
      (∀ j : nat,
         pEntries t' !! j =
           if decide (stop ≤ j < i)%nat then sweep func <$> pEntries t1 !! j
           else pEntries t1 !! j) →
      (∀ (j : nat) x, (stop ≤ j < i)%nat → pEntries t1 !! j = Some x →
         is_live x = true → func (data x) = 0 ∨ func (data x) = 1) →
      ((val = 0 ∧ stop = 0%nat) ∨
       (∃ (y : nat) x, stop = S y ∧ pEntries t1 !! y = Some x ∧
          is_live x = true ∧ func (data x) = val ∧ val ≠ 0 ∧ val ≠ 1)) →
      (stop ≤ S i)%nat ∧
      (∀ j : nat,
         pEntries t' !! j =
           if decide (stop ≤ j < S i)%nat then sweep func <$> pEntries t !! j
           else pEntries t !! j) ∧
      (∀ (j : nat) x, (stop ≤ j < S i)%nat → pEntries t !! j = Some x →
         is_live x = true → func (data x) = 0 ∨ func (data x) = 1) ∧
      ((val = 0 ∧ stop = 0%nat) ∨
       (∃ (y : nat) x, stop = S y ∧ pEntries t !! y = Some x ∧
          is_live x = true ∧ func (data x) = val ∧ val ≠ 0 ∧ val ≠ 1)))
      as Hstep.
    { intros t1 val t' stop Hstop Hother Hi Hanswer Hall Hans Hend.
      split; [lia |]. split; [| split].
      - intros j. rewrite Hall.
        destruct (decide (j = i)) as [-> | Hne].
        + destruct (decide (stop ≤ i < i)%nat); [lia |].
          destruct (decide (stop ≤ i < S i)%nat); [| lia].
          by rewrite Hi, He.
        + rewrite (Hother j Hne).
          destruct (decide (stop ≤ j < i)%nat),
                   (decide (stop ≤ j < S i)%nat); done || lia.
      - intros j x Hj Hx Hlx. destruct (decide (j = i)) as [-> | Hne].
        + simplify_eq. by apply Hanswer.
        + apply (Hans j x); [lia | by rewrite Hother | done].
      - destruct Hend as [? | (y & x & -> & Hy & Hrest)]; [by left | right].
        exists y, x. split; [done |]. split; [| done].
        rewrite <- Hother; [done | lia]. }
    destruct (is_live e) eqn:Hlive.
    + destruct (Z.eqb_spec (func (data e)) 1) as [Hrm | Hkeep].
      * pose proof HInv as [Hcon Hload].
        pose proof (count_if_nonneg is_live (pEntries t)).
        pose proof (count_if_nonneg is_tombstone (pEntries t)).
        pose proof (con_live t Hcon). pose proof (con_dead t Hcon).
        pose proof (wf_length t (con_wf t Hcon)).
        pose proof (wf_size t (con_wf t Hcon)).
        rewrite !int_in_range by (unfold INT_MIN, INT_MAX; lia). simpl bind.
        rewrite (set_data_tombstone _ _ e) by done.
        fold (tombstoned t i e).
        destruct (tombstoned_Inv t i e HInv He Hlive) as (HInv1 & _ & _).
        destruct (IH (tombstoned t i e))
          as (val & t' & stop & Hloop & ? & ? & ? & ? & Hsum & Hstop & Hall
              & Hans & Hend);
          [done | by simpl; rewrite length_insert; lia |].
        exists val, t', stop. split; [done |]. split; [done |].
        do 3 (split; [done |]). split; [simpl in Hsum; lia |].
        apply (Hstep (tombstoned t i e)); try done.
        -- intros j Hne. simpl. by rewrite list_lookup_insert_ne.
        -- simpl. rewrite list_lookup_insert_eq by lia.
           by rewrite sweep_remove.
        -- auto.
      * destruct (Z.eqb_spec (func (data e)) 0) as [H0 | H0]; simpl.
        -- destruct (IH t)
             as (val & t' & stop & Hloop & ? & ? & ? & ? & Hsum & Hstop & Hall
                 & Hans & Hend); [done | lia |].
           exists val, t', stop. split; [done |]. split; [done |].
           do 4 (split; [done |]).
           apply (Hstep t); try done; [| auto].
           by rewrite sweep_keep.
        -- exists (func (data e)), t, (S i). split; [done |]. split; [done |].
           do 4 (split; [done |]). split; [lia |]. split.
           { intros j. destruct (decide (S i ≤ j < S i)%nat); [lia | done]. }
           split; [intros; lia |]. right. exists i, e. done.
    + destruct (IH t)
        as (val & t' & stop & Hloop & ? & ? & ? & ? & Hsum & Hstop & Hall
            & Hans & Hend); [done | lia |].
      exists val, t', stop. split; [done |]. split; [done |].
      do 4 (split; [done |]).
      apply (Hstep t); try done.
      by rewrite sweep_not_live.
Qed.

Lemma count_if_pointwise_le P (es : list HashEntry) :
  ∀ es' : list HashEntry, length es' = length es →
  (∀ (p : nat) e e', es !! p = Some e → es' !! p = Some e' →
     P e' = true → P e = true) →
  count_if P es' ≤ count_if P es.
Proof.
  induction es as [| e es IH]; intros [| e' es'] Hlen Hle; simplify_eq/=;
    [lia |].
  pose proof (IH es' Hlen (λ p, Hle (S p))) as Hrest.
  pose proof (Hle 0%nat e e' eq_refl eq_refl) as Hhead.
  destruct (P e'); [rewrite Hhead by done |]; destruct (P e); lia.
Qed.

Lemma count_if_sweep func (es : list HashEntry) :
  count_if is_live (sweep func <$> es)
    = count_if is_live es
      - count_if (λ e, is_live e && (func (data e) =? 1)) es.
Proof.
  induction es as [| e es IH]; [done |].
  rewrite fmap_cons. simpl count_if. rewrite IH. unfold sweep.
  destruct (is_live e) eqn:Hlive; simpl.
  - destruct (func (data e) =? 1); simpl; [| rewrite Hlive]; lia.
  - rewrite Hlive. lia.
Qed.

Lemma sweep_live func e :
  is_live (sweep func e) = true ↔ is_live e = true ∧ func (data e) ≠ 1.
Proof.
  unfold sweep. destruct (is_live e) eqn:Hlive; simpl.
  - destruct (Z.eqb_spec (func (data e)) 1); simpl.
    + split; [done | intros [_ ?]; done].
    + rewrite Hlive. done.
  - rewrite Hlive. split; [done | intros [? _]; done].
Qed.

Lemma sweep_live_eq func e : is_live (sweep func e) = true → sweep func e = e.
Proof. intros [_ ?]%sweep_live. by apply sweep_keep. Qed.

(** X8.  A removing traversal is safe with any visitor.  On every table the
    public operations produce, [dvmHashForeachRemove] returns whatever the
    visitor answers; the table it leaves satisfies the invariant and has
    the same capacity; no slot changes but Occupied slots for which the
    visitor has answered 1, which become Tombstones with their stored hash;
    [numEntries + numDeadEntries] is what it was and [numEntries] has not
    grown; every entry stored afterwards was stored before; the release
    function is not called. *)
Theorem foreachRemove_any_visitor ins t func :
  reachable ins t →
  ∃ val t',
    dvmHashForeachRemove t func = Done (val, t') ∧ Inv t' ∧
    tableSize t' = tableSize t ∧ freed t' = freed t ∧
    numEntries t' + numDeadEntries t' = numEntries t + numDeadEntries t ∧
    numEntries t' ≤ numEntries t ∧
    (∀ (p : nat) e, pEntries t !! p = Some e →
       pEntries t' !! p = Some e ∨
       (is_live e = true ∧ func (data e) = 1 ∧
        pEntries t' !! p = Some (mkEntry (hashValue e) HASH_TOMBSTONE))) ∧
    (∀ e, live_in (pEntries t') e → live_in (pEntries t) e).
Proof.
  intros [HInv _]%reachable_Inv. pose proof HInv as [Hcon _].
  pose proof (wf_length t (con_wf t Hcon)) as Hlen.
  destruct (foreachRemove_loop_sweep func (Z.to_nat (tableSize t)) t HInv)
    as (val & t' & stop & Hloop & HInv' & HT & _ & Hfreed & Hsum & _ & Hall
        & _ & _); [lia |].
  assert (∀ (p : nat) e, pEntries t !! p = Some e →
            pEntries t' !! p = Some e ∨ pEntries t' !! p = Some (sweep func e))
    as Hslot.
  { intros p e Hp. rewrite Hall, Hp.
    destruct (decide _); [by right | by left]. }
  assert (∀ (p : nat) e', pEntries t' !! p = Some e' →
            ∃ e, pEntries t !! p = Some e ∧ (e' = e ∨ e' = sweep func e))
    as Hback.
  { intros p e' Hp. rewrite Hall in Hp.
    destruct (pEntries t !! p) as [e |] eqn:He.
    - exists e. split; [done |].
      destruct (decide _); simplify_eq/=; [by right | by left].
    - destruct (decide _); simplify_eq/=. }
  exists val, t'. split; [done |]. split; [done |].
  do 3 (split; [done |]). split; [| split].
  - destruct HInv' as [Hcon' _].
    rewrite (con_live t' Hcon'), (con_live t Hcon).
    apply count_if_pointwise_le.
    + pose proof (wf_length t' (con_wf t' Hcon')). lia.
    + intros p e e' He He' Hlive.
      destruct (Hback p e' He') as (e0 & He0 & [-> | ->]); simplify_eq;
        [done |].
      by apply sweep_live in Hlive as [? _].
  - intros p e Hp. destruct (Hslot p e Hp) as [? | Hsw]; [by left |].
    destruct (is_live e) eqn:Hlive;
      [| left; by rewrite sweep_not_live in Hsw].
    destruct (decide (func (data e) = 1)) as [H1 | H1].
    + right. by rewrite sweep_remove in Hsw.
    + left. by rewrite sweep_keep in Hsw.
  - intros e' (p & Hp & Hlive).
    destruct (Hback p e' Hp) as (e & He & [-> | ->]); [by exists p |].
    pose proof (sweep_live_eq _ _ Hlive) as Heq.
    rewrite Heq in Hlive |- *. by exists p.
Qed.

Lemma foreachRemove_any_visitor_witness :
  ∃ val t',
    dvmHashForeachRemove tableABCD remove_D_stop_at_C = Done (val, t') ∧
    numEntries t' + numDeadEntries t' = 4.
Proof.
  destruct (foreachRemove_any_visitor (reverse keysABCD) tableABCD
              remove_D_stop_at_C)
    as (val & t' & Hrun & _ & _ & _ & Hsum & _).
  - apply reachable_tableABCD.
  - exists val, t'. split; [exact Hrun | exact Hsum].
Defined.

(** X9.  A removing traversal whose visitor answers only 0 or 1.  On every
    table the public operations produce it visits every Occupied slot and
    returns 0; the array it leaves is the old one with each Occupied slot
    the visitor has answered 1 for turned into a Tombstone, and no other
    change; [numEntries] goes down and [numDeadEntries] up by the number of
    those slots; the entries stored afterwards are the ones the visitor has
    answered 0 for. *)
Theorem foreachRemove_sweeps ins t func :
  reachable ins t →
  (∀ e, live_in (pEntries t) e → func (data e) = 0 ∨ func (data e) = 1) →
  ∃ t',
    dvmHashForeachRemove t func = Done (0, t') ∧
    pEntries t' = sweep func <$> pEntries t ∧
    tableSize t' = tableSize t ∧
    freeFunc t' = freeFunc t ∧ freed t' = freed t ∧
    numEntries t'
      = numEntries t
        - count_if (λ e, is_live e && (func (data e) =? 1)) (pEntries t) ∧
    numDeadEntries t'
      = numDeadEntries t
        + count_if (λ e, is_live e && (func (data e) =? 1)) (pEntries t) ∧
    (∀ e, live_in (pEntries t') e
          ↔ live_in (pEntries t) e ∧ func (data e) = 0).
Proof.
  intros [HInv _]%reachable_Inv Hanswers. pose proof HInv as [Hcon _].
  pose proof (wf_length t (con_wf t Hcon)) as Hlen.
  destruct (foreachRemove_loop_sweep func (Z.to_nat (tableSize t)) t HInv)
    as (val & t' & stop & Hloop & [Hcon' _] & HT & Hff & Hfreed & Hsum & _
        & Hall & _ & [[-> ->] | (y & e & _ & Hy & Hlive & Hval & H0 & H1)]);
    [lia | |].
  2: { destruct (Hanswers e) as [? | ?]; [by exists y | congruence ..]. }
  assert (pEntries t' = sweep func <$> pEntries t) as Hes.
  { apply list_eq. intros j. rewrite Hall, list_lookup_fmap.
    destruct (decide _) as [| Hout]; [done |].
    rewrite lookup_ge_None_2 by lia. done. }
  assert (numEntries t'
          = numEntries t
            - count_if (λ e, is_live e && (func (data e) =? 1)) (pEntries t))
    as Hn.
  { by rewrite (con_live t' Hcon'), Hes, count_if_sweep, <- (con_live t Hcon). }
  exists t'. split; [done |]. split; [done |]. do 3 (split; [done |]).
  split; [done |]. split; [lia |].
  intros e'. rewrite Hes. split.
  - intros (p & Hp & Hlive'). rewrite list_lookup_fmap in Hp.
    destruct (pEntries t !! p) as [e |] eqn:He; simplify_eq/=.
    pose proof (sweep_live_eq _ _ Hlive') as Heq.
    apply sweep_live in Hlive' as [Hlive Hne]. rewrite Heq.
    split; [by exists p |].
    destruct (Hanswers e) as [? | ?]; [by exists p | done | done].
  - intros [(p & Hp & Hlive) H0]. exists p.
    rewrite list_lookup_fmap, Hp. simpl.
    rewrite sweep_keep by lia. done.
Qed.

Lemma foreachRemove_sweeps_witness :
  dvmHashForeachRemove tableABCD remove_B = Done (0, tableACD).
Proof.
  destruct (foreachRemove_sweeps (reverse keysABCD) tableABCD remove_B)
    as (t' & Hrun & Hes & HT & Hff & Hfreed & Hn & Hd & _).
  - apply reachable_tableABCD.
  - intros e (p & Hp & Hlive). unfold remove_B.
    destruct (data e =? 12); [by right | by left].
  - rewrite Hrun. f_equal. f_equal. destruct t'. simpl in *.
    unfold tableACD. subst. reflexivity.
Defined.

(** X10.  A removing traversal ends at the first answer that is neither 0
    nor 1.  The slots are visited from the last one down; when the visitor
    answers something else than 0 or 1 for the Occupied slot [y], and 0 or
    1 for the Occupied slots above it, the traversal returns that answer;
    the slots above [y] have been swept, and slot [y] and the slots below
    it are as they were, whatever the visitor would answer for them. *)
Theorem foreachRemove_stops ins t func (y : nat) e :
  reachable ins t →
  pEntries t !! y = Some e → is_live e = true →
  func (data e) ≠ 0 → func (data e) ≠ 1 →
  (∀ (q : nat) x, (y < q)%nat → pEntries t !! q = Some x →
     is_live x = true → func (data x) = 0 ∨ func (data x) = 1) →
  ∃ t',
    dvmHashForeachRemove t func = Done (func (data e), t') ∧ Inv t' ∧
    pEntries t'
      = take (S y) (pEntries t) ++ (sweep func <$> drop (S y) (pEntries t)) ∧
    tableSize t' = tableSize t ∧
    freeFunc t' = freeFunc t ∧ freed t' = freed t ∧
    numEntries t' + numDeadEntries t' = numEntries t + numDeadEntries t.
Proof.
  intros [HInv _]%reachable_Inv Hy Hlive H0 H1 Habove.
  pose proof HInv as [Hcon _].
  pose proof (wf_length t (con_wf t Hcon)) as Hlen.
  pose proof (lookup_lt_Some _ _ _ Hy) as Hylt.
  destruct (foreachRemove_loop_sweep func (Z.to_nat (tableSize t)) t HInv)
    as (val & t' & stop & Hloop & HInv' & HT & Hff & Hfreed & Hsum & _
        & Hall & Hans & Hend); [lia |].
  assert (stop = S y ∧ val = func (data e)) as [-> ->].
  { destruct Hend as [[_ ->] | (y' & x & -> & Hy' & Hlx & Hval & Hx0 & Hx1)].
    - destruct (Hans y e) as [? | ?]; [lia | done | done | done | done].
    - destruct (decide (y < y')%nat) as [Hlt | Hge].
      { destruct (Habove y' x Hlt Hy' Hlx) as [? | ?]; congruence. }
      destruct (decide (y' < y)%nat) as [Hlt | Hge'].
      { destruct (Hans y e) as [? | ?]; [lia | done | done | done | done]. }
      assert (y' = y) as -> by lia. simplify_eq. done. }
  exists t'. split; [done |]. split; [done |].
  split; [| done].
  apply list_eq. intros j. rewrite Hall.
  destruct (decide (S y ≤ j < Z.to_nat (tableSize t))%nat) as [Hin | Hout].
  - rewrite lookup_app_r by (rewrite length_take_le; lia).
    rewrite length_take_le by lia.
    rewrite list_lookup_fmap, lookup_drop. do 2 f_equal. lia.
  - destruct (decide (j < S y)%nat) as [Hlt | Hge].
    + rewrite lookup_app_l by (rewrite length_take_le; lia).
      by rewrite lookup_take_lt.
    + rewrite (lookup_ge_None_2 (pEntries t)) by lia. symmetry.
      apply lookup_ge_None_2.
      rewrite length_app, length_take_le, length_fmap, length_drop by lia.
      lia.
Qed.

Lemma foreachRemove_stops_witness :
  dvmHashForeachRemove tableABCD remove_D_stop_at_C
    = Done (7, mkTable 8 3 1
                 [mkEntry 0 11; mkEntry 1 12; mkEntry 2 13; mkEntry 0 NULL;
                  mkEntry 4 HASH_TOMBSTONE; mkEntry 0 NULL; mkEntry 0 NULL;
                  mkEntry 0 NULL] false []).
Proof.
  destruct (foreachRemove_stops (reverse keysABCD) tableABCD
              remove_D_stop_at_C 2 (mkEntry 2 13))
    as (t' & Hrun & [Hcon _] & Hes & HT & Hff & Hfreed & Hsum).
  - apply reachable_tableABCD.
  - reflexivity.
  - reflexivity.
  - vm_compute. discriminate.
  - vm_compute. discriminate.
  - intros q x Hq Hx _.
    destruct q as [| [| [| [| [| [| [| [| q]]]]]]]]; simplify_eq/=;
      first [lia | by left | by right].
  - rewrite Hrun. f_equal. f_equal.
    pose proof (con_live t' Hcon) as Hn. rewrite Hes in Hn.
    destruct t'. simpl in *. vm_compute in Hn.
    assert (numDeadEntries0 = 1) by lia. by subst.
Defined.

(** ** dvmHashForeach *)

Lemma visit_cons_nil {A : Type} (func : HashForeachFunc A) v vs (arg : A) :
  visit func (v :: vs) arg =
    (let '(val, arg') := func v arg in
     if val =? 0 then visit func vs arg' else (val, arg')).
Proof. done. Qed.

Lemma foreach_loop_spec {A : Type} t (func : HashForeachFunc A) (i : nat) :
  ∀ arg, (i ≤ length (pEntries t))%nat →
  foreach_loop i t func arg
    = Done (visit func (reverse (live_data (take i (pEntries t)))) arg).
Proof.
  induction i as [| i IH]; intros arg Hlen; [done |].
  destruct (lookup_lt_is_Some_2 (pEntries t) i) as [e He]; [lia |].
  simpl foreach_loop. rewrite (load_lookup _ _ _ He). simpl bind.
  change (negb (data e =? NULL) && negb (data e =? HASH_TOMBSTONE))
    with (is_live e).
  rewrite (take_S_r _ _ _ He), live_data_app, reverse_app. simpl live_data.
  destruct (is_live e).
  - change (reverse [data e]) with [data e]. simpl app.
    rewrite visit_cons_nil. destruct (func (data e) arg) as [val arg'].
    destruct (val =? 0); simpl; [| done]. apply IH. lia.
  - simpl. apply IH. lia.
Qed.

(** X11.  What a traversal visits.  On every table the public operations
    produce, [dvmHashForeach] returns, and it is the visitor called on the
    values of the Occupied slots, from the last slot of the array down to
    the first, up to the first answer that is not 0, which it returns (0 at
    the end of the array); Empty and Tombstone slots are not shown to the
    visitor, and the values shown are [numEntries] many when no answer ends
    the traversal. *)
Theorem dvmHashForeach_visits {A : Type} ins t (func : HashForeachFunc A) arg :
  reachable ins t →
  dvmHashForeach t func arg
    = Done (visit func (reverse (live_data (pEntries t))) arg) ∧
  Z.of_nat (length (reverse (live_data (pEntries t)))) = numEntries t ∧
  (∀ v, v ∈ reverse (live_data (pEntries t))
        ↔ ∃ e, live_in (pEntries t) e ∧ data e = v).
Proof.
  intros [[Hcon _] _]%reachable_Inv.
  pose proof (wf_length t (con_wf t Hcon)) as Hlen.
  split; [| split].
  - unfold dvmHashForeach. rewrite foreach_loop_spec by lia.
    rewrite take_ge by lia. done.
  - rewrite length_reverse, live_data_length. symmetry. apply Hcon.
  - intros v. rewrite elem_of_reverse. apply elem_of_live_data.
Qed.

Lemma dvmHashForeach_visits_witness :
  dvmHashForeach tableACD collect [] = Done (0, [14; 13; 11]) ∧
  dvmHashForeach tableACD stop_at_C [] = Done (7, [14; 13]).
Proof.
  split.
  - destruct (dvmHashForeach_visits (reverse keysABCD) tableACD collect [])
      as (Hrun & _ & _); [apply reachable_tableACD |].
    rewrite Hrun. reflexivity.
  - destruct (dvmHashForeach_visits (reverse keysABCD) tableACD stop_at_C [])
      as (Hrun & _ & _); [apply reachable_tableACD |].
    rewrite Hrun. reflexivity.
Defined.

(** ** Tables without entries *)

(** On a table all of whose slots are Empty, every lookup that does not add
    ends at the home slot, every removal finds nothing, and a traversal
    visits nothing. *)
Lemma all_empty_absent {A : Type} t fuel itemHash item cmpFunc
    (func : HashForeachFunc A) arg :
  Inv t →
  (∀ (p : nat) e, pEntries t !! p = Some e → data e = NULL) →
  lookup_counting (S fuel) t itemHash item cmpFunc false = Done (NULL, t, 0) ∧
  dvmHashTableRemove (S fuel) t itemHash item = Done (false, t) ∧
  dvmHashForeach t func arg = Done (0, arg).
Proof.
  intros HInv Hempty. pose proof HInv as [Hcon _].
  pose proof (con_wf t Hcon) as Hwf.
  pose proof (wf_length t Hwf) as Hlen.
  destruct (wf_pow2 t Hwf) as (n & Hn & HT).
  pose proof (home_range (tableSize t) n itemHash (proj1 Hn) HT) as Hhome.
  destruct (lookup_lt_is_Some_2 (pEntries t)
              (Z.to_nat (home (tableSize t) itemHash))) as [e He]; [lia |].
  assert (is_empty e = true) as Hemp.
  { unfold is_empty. rewrite (Hempty _ _ He). done. }
  assert (slot (tableSize t) (home (tableSize t) itemHash) 0
          = home (tableSize t) itemHash) as Hs by (by apply slot_0).
  split; [| split].
  - rewrite (lookup_counting_eval _ _ _ _ _ _ 0 e); [by rewrite Hemp | done | |
      by rewrite Hs | simpl; lia].
    split; [lia |]. split; [intros; lia |]. exists e. rewrite Hs.
    split; [done |]. unfold lookup_stop. by rewrite Hemp.
  - rewrite (remove_eval _ _ _ _ 0 e); [by rewrite Hemp | done | |
      by rewrite Hs | simpl; lia].
    split; [lia |]. split; [intros; lia |]. exists e. rewrite Hs.
    split; [done |]. unfold remove_stop. by rewrite Hemp.
  - unfold dvmHashForeach. rewrite foreach_loop_spec by lia.
    rewrite take_ge by lia.
    assert (live_data (pEntries t) = []) as ->; [| done].
    assert (∀ es : list HashEntry,
              (∀ (p : nat) x, es !! p = Some x → data x = NULL) →
              live_data es = []) as Hnil.
    { induction es as [| x es IH]; intros Hall; [done |]. simpl.
      unfold is_live. rewrite (Hall 0%nat x eq_refl). simpl.
      apply IH. intros p. apply (Hall (S p)). }
    by apply Hnil.
Qed.

Lemma lookup_of_counting fuel t itemHash item cmpFunc doAdd r t' c :
  lookup_counting fuel t itemHash item cmpFunc doAdd = Done (r, t', c) →
  dvmHashTableLookup fuel t itemHash item cmpFunc doAdd = Done (r, t').
Proof. unfold dvmHashTableLookup. by intros ->. Qed.

(** X12.  A created table is empty.  Creation with a capacity hint between
    1 and 2^30 succeeds and records the release function; in the table it
    returns every lookup that does not add returns [NULL] and leaves the
    table as it is, every removal returns false, a traversal calls its
    visitor not once, and a removing traversal returns 0 and changes
    nothing, whatever the key and the visitor. *)
Theorem created_table_is_empty initialSize ff :
  0 < initialSize ≤ 2 ^ 30 →
  ∃ t,
    dvmHashTableCreate initialSize ff = Some t ∧
    freeFunc t = ff ∧ freed t = [] ∧ initialSize ≤ tableSize t ∧
    (∀ fuel itemHash item cmpFunc,
       dvmHashTableLookup (S fuel) t itemHash item cmpFunc false
         = Done (NULL, t) ∧
       dvmHashTableRemove (S fuel) t itemHash item = Done (false, t)) ∧
    (∀ (A : Type) (func : HashForeachFunc A) arg,
       dvmHashForeach t func arg = Done (0, arg)) ∧
    (∀ func, dvmHashForeachRemove t func = Done (0, t)).
Proof.
  intros Hsize.
  destruct (create_spec initialSize ff Hsize)
    as (t & Hcreate & HInv & _ & Hle & _ & _ & Hfreed & Hnone).
  assert (freeFunc t = ff ∧
          ∀ (p : nat) e, pEntries t !! p = Some e → data e = NULL)
    as [Hff Hempty].
  { unfold dvmHashTableCreate, calloc in Hcreate.
    destruct (0 <=? dexRoundUpPower2 initialSize); simplify_eq/=.
    split; [done |]. by intros p e [-> _]%lookup_replicate. }
  exists t. do 4 (split; [done |]). split; [| split].
  - intros fuel itemHash item cmpFunc.
    destruct (all_empty_absent t fuel itemHash item cmpFunc
                (λ _ (u : unit), (0, u)) tt HInv Hempty) as (Hl & Hr & _).
    split; [by apply (lookup_of_counting _ _ _ _ _ _ _ _ _ Hl) | done].
  - intros A func arg.
    by destruct (all_empty_absent t 0 0 0 (λ _ _, 0) func arg HInv Hempty)
      as (_ & _ & ?).
  - intros func. apply foreachRemove_keep.
    + destruct HInv as [Hcon _]. pose proof (wf_length t (con_wf t Hcon)). lia.
    + intros p e _ Hp Hlive. destruct (Hnone e). by exists p.
Qed.

Lemma created_table_is_empty_witness :
  ∃ t, dvmHashTableCreate 3 false = Some t ∧
       dvmHashTableLookup 1 t 2 13 cmp_identity false = Done (NULL, t).
Proof.
  destruct (created_table_is_empty 3 false) as (t & Hc & _ & _ & _ & Hl & _).
  - lia.
  - exists t. split; [exact Hc |]. apply Hl.
Defined.

(** X13.  Clear forgets every key.  After [dvmHashTableClear] of a table
    the public operations have produced, every lookup that does not add
    returns [NULL], also for the keys that were stored, every removal
    returns false, and a traversal calls its visitor not once; the cleared
    table is again one the public operations accept. *)
Theorem cleared_table_is_empty ins t :
  reachable ins t →
  ∃ t',
    dvmHashTableClear t = Done t' ∧ reachable ins t' ∧
    tableSize t' = tableSize t ∧
    (∀ fuel itemHash item cmpFunc,
       dvmHashTableLookup (S fuel) t' itemHash item cmpFunc false
         = Done (NULL, t') ∧
       dvmHashTableRemove (S fuel) t' itemHash item = Done (false, t')) ∧
    (∀ (A : Type) (func : HashForeachFunc A) arg,
       dvmHashForeach t' func arg = Done (0, arg)).
Proof.
  intros Hreach. pose proof (reachable_Inv _ _ Hreach) as [[Hcon _] _].
  destruct (clear_spec t (con_wf t Hcon))
    as (t' & Hclear & HInv' & HT & _ & _ & Hemp).
  assert (∀ (p : nat) e, pEntries t' !! p = Some e → data e = NULL)
    as Hempty.
  { intros p e Hp. pose proof (Hemp p e Hp) as He. unfold is_empty in He.
    by apply Z.eqb_eq. }
  exists t'. split; [done |]. split; [by eapply reach_clear |].
  split; [done |]. split.
  - intros fuel itemHash item cmpFunc.
    destruct (all_empty_absent t' fuel itemHash item cmpFunc
                (λ _ (u : unit), (0, u)) tt HInv' Hempty) as (Hl & Hr & _).
    split; [by apply (lookup_of_counting _ _ _ _ _ _ _ _ _ Hl) | done].
  - intros A func arg.
    by destruct (all_empty_absent t' 0 0 0 (λ _ _, 0) func arg HInv'
                   Hempty) as (_ & _ & ?).
Qed.

Lemma cleared_table_is_empty_witness :
  ∃ t', dvmHashTableClear tableACD = Done t' ∧
        dvmHashTableLookup 1 t' 2 13 cmp_identity false = Done (NULL, t').
Proof.
  destruct (cleared_table_is_empty (reverse keysABCD) tableACD)
    as (t' & Hc & _ & _ & Hl & _).
  - apply reachable_tableACD.
  - exists t'. split; [exact Hc |]. apply Hl.
Defined.
